(** * Geometric image augmentors of [tensorpack/dataflow/imgaug/misc.py]

    A shallow embedding of the parameter sampling and the coordinate
    transforms of [Flip], [ResizeShortestEdge], [RandomResize] and
    [Transpose], followed by the properties stated about them.

    Numbers.  Python [int] is [Z].  Python [float] is modelled by the exact
    rationals [Q]: the arithmetic is the ideal one, binary64 rounding is not
    part of the model.  Where the source tells an [int] from a [float]
    ([isinstance]) the value carries its tag ([pyval]).

    Effects.  The augmentors draw from a random generator and write to a
    logger; both live in [world], threaded by the monad [M], which also
    carries Python exceptions. *)

From Stdlib Require Import ZArith QArith Qabs Qround String List Bool Lia Lqa.
Import ListNotations.

Set Implicit Arguments.

Local Open Scope Q_scope.

(** ** Python values, exceptions *)

Inductive pyval : Type :=
| PyInt (z : Z)
| PyFloat (q : Q).

(** [isinstance(v, float)] *)
Definition isinstance_float (v : pyval) : bool :=
  match v with
  | PyFloat _ => true
  | PyInt _ => false
  end.

(** The number a value stands for, as arithmetic uses it. *)
Definition num (v : pyval) : Q :=
  match v with
  | PyInt z => inject_Z z
  | PyFloat q => q
  end.

(** [a == b] on numbers compares values, whatever the tags. *)
Definition py_eqb (a b : pyval) : bool := Qeq_bool (num a) (num b).

(** [==] on 2-tuples of numbers. *)
Definition tuple_eqb (a b : pyval * pyval) : bool :=
  py_eqb (fst a) (fst b) && py_eqb (snd a) (snd b).

Inductive exn : Type :=
| ValueError
| AssertionError
| ZeroDivisionError
| TypeError.

Inductive result (A : Type) : Type :=
| Ok (a : A)
| Raise (e : exn).

Arguments Ok {A} a.
Arguments Raise {A} e.

(** ** Arithmetic of the source *)

Definition Qlt_bool (a b : Q) : bool := negb (Qle_bool b a).

(** [int(q)] on a float: truncation towards zero. *)
Definition py_int (q : Q) : Z :=
  if Qle_bool 0 q then Qfloor q else Qceiling q.

(** [max(a, b)]: the second argument only when it is strictly larger. *)
Definition py_max (a b : Q) : Q :=
  if Qlt_bool a b then b else a.

(** [int(x + 0.5)], the rounding used for every computed size. *)
Definition round_half (x : Q) : Z := py_int (x + 0.5).

(** ** Random generator, logger and exceptions: the monad [M]

    [draws] is the sequence of unit draws the generator will deliver,
    [pos] the number already consumed, [log] the warnings written so far. *)

Record world : Type := World {
  draws : nat -> Q;
  pos : nat;
  log : list string
}.

Definition M (A : Type) : Type := world -> result A * world.

Definition ret {A} (a : A) : M A := fun s => (Ok a, s).

Definition raise {A} (e : exn) : M A := fun s => (Raise e, s).

Definition bind {A B} (m : M A) (k : A -> M B) : M B :=
  fun s =>
    match m s with
    | (Ok a, s') => k a s'
    | (Raise e, s') => (Raise e, s')
    end.

Notation "x <- m ;; k" := (bind m (fun x => k))
  (at level 61, m at next level, right associativity).
Notation "m ;;; k" := (bind m (fun _ => k))
  (at level 61, right associativity).

(** One draw of the generator, a number of [[0, 1)]. *)
Definition random_sample : M Q :=
  fun s => (Ok (draws s (pos s)),
            {| draws := draws s; pos := S (pos s); log := log s |}).

(** Modelled from the spec: [ImageAugmentor._rand_range] is defined in
    [.base], which is not among the sources.  The spec has it draw uniformly
    from the range given ("draw sx uniformly from xrange", "draw a uniform
    random value in [0,1)"); as [numpy]'s [uniform(low, high)] does, the
    unit draw is scaled into the range. *)
Definition _rand_range (low high : Q) : M Q :=
  u <- random_sample ;; ret (low + (high - low) * u).

(** [logger.warn(msg)] *)
Definition logger_warn (msg : string) : M unit :=
  fun s => (Ok tt,
            {| draws := draws s; pos := pos s; log := log s ++ [msg] |}).

(** Float division [a / b]: Python raises on a zero divisor. *)
Definition py_div (a b : Q) : M Q :=
  if Qeq_bool b 0 then raise ZeroDivisionError else ret (a / b).

(** [assert c] *)
Definition py_assert (c : bool) : M unit :=
  if c then ret tt else raise AssertionError.

(** The draws of a well-behaved generator lie in [[0, 1)]. *)
Definition unit_draws (s : world) : Prop :=
  forall n, 0 <= draws s n /\ draws s n < 1.

(** Modelled from the spec: [ResizeTransform] is defined in [.transform],
    which is not among the sources.  The spec: "Holds (srcH, srcW, dstH,
    dstW, interpolation)"; the constructor takes them in this order. *)
Record ResizeTransform : Type := MkResizeTransform {
  src_h : Z;
  src_w : Z;
  dst_h : Z;
  dst_w : Z;
  rt_interp : Z
}.

(** An image enters parameter sampling through [img.shape[:2]] only, so
    the sampling functions take the height [h] and the width [w].
    A coordinate set is the sequence of its points [(x, y)]. *)
Definition coords : Type := list (Q * Q).

(** ** Flip *)

Module Flip.

Record t : Type := Build { code : Z; prob : Q }.

Definition __init__ (horiz vert : bool) (prob : Q) : result t :=
  if horiz && vert then Raise ValueError
  else if horiz then Ok (Build 1 prob)
  else if vert then Ok (Build 0 prob)
  else Raise ValueError.

Definition _get_augment_params (self : t) (h w : Z) : M (bool * Z * Z) :=
  r <- _rand_range 0 1 ;;
  ret (Qlt_bool r (prob self), h, w).

Definition _augment_coords (self : t) (cs : coords) (param : bool * Z * Z)
  : coords :=
  let '(do, h, w) := param in
  if do then
    if (code self =? 0)%Z then
      map (fun p => (fst p, inject_Z h - snd p)) cs
    else if (code self =? 1)%Z then
      map (fun p => (inject_Z w - fst p, snd p)) cs
    else cs
  else cs.

End Flip.

(** ** ResizeShortestEdge *)

Module ResizeShortestEdge.

Record t : Type := Build { size : Z; interp : Z }.

(** [size = int(size)] *)
Definition __init__ (size : pyval) (interp : Z) : t :=
  Build (match size with PyInt z => z | PyFloat q => py_int q end) interp.

Definition _get_augment_params (self : t) (h w : Z) : M ResizeTransform :=
  scale <- py_div (inject_Z (size self) * 1) (inject_Z (Z.min h w)) ;;
  if (h <? w)%Z then
    ret (MkResizeTransform h w
           (size self) (round_half (scale * inject_Z w)) (interp self))
  else
    ret (MkResizeTransform h w
           (round_half (scale * inject_Z h)) (size self) (interp self)).

End ResizeShortestEdge.

(** ** RandomResize *)

Module RandomResize.

(** A [(min, max)] tuple. *)
Definition range : Type := (pyval * pyval)%type.

Record t : Type := Build {
  xrange : range;
  yrange : option range;
  minimum : Q * Q;
  aspect_ratio_thres : Q;
  interp : Z;
  _is_scale : bool
}.

Definition is_float (tp : range) : bool :=
  isinstance_float (fst tp) || isinstance_float (snd tp).

Definition is_none {A} (o : option A) : bool :=
  match o with None => true | Some _ => false end.

(** [xrange == yrange], which is [False] when [yrange] is [None]. *)
Definition eq_yrange (xr : range) (yr : option range) : bool :=
  match yr with
  | Some r => tuple_eqb xr r
  | None => false
  end.

Definition __init__ (xrange : range) (yrange : option range)
    (minimum : Q * Q) (aspect_ratio_thres : Q) (interp : Z) : M t :=
  py_assert (Qle_bool 0 aspect_ratio_thres) ;;;
  match yrange with
  | Some yr => py_assert (Bool.eqb (is_float xrange) (is_float yr))
  | None => ret tt
  end ;;;
  let _is_scale := is_float xrange in
  (if Qeq_bool aspect_ratio_thres 0 then
     if _is_scale then
       py_assert (eq_yrange xrange yrange || is_none yrange)
     else
       match yrange with
       | Some _ => logger_warn "aspect_ratio_thres==0, yrange is not used!"
       | None => ret tt
       end
   else ret tt) ;;;
  ret (Build xrange yrange minimum aspect_ratio_thres interp _is_scale).

(** [self._rand_range( *r )] *)
Definition rand_in (r : range) : M Q :=
  _rand_range (num (fst r)) (num (snd r)).

(** [self._rand_range( *self.yrange )]: unpacking [None] is a type error. *)
Definition rand_in_yrange (self : t) : M Q :=
  match yrange self with
  | Some r => rand_in r
  | None => raise TypeError
  end.

(** [get_dest_size] up to its [return]: the pair [(destX, destY)] to which
    the rounding [int(. + 0.5)] is then applied. *)
Definition dest_before_rounding (self : t) (h w : Z) : M (Q * Q) :=
  if _is_scale self then
    sx <- rand_in (xrange self) ;;
    sy <- (if Qeq_bool (aspect_ratio_thres self) 0 then ret sx
           else rand_in_yrange self) ;;
    ret (py_max (sx * inject_Z w) (fst (minimum self)),
         py_max (sy * inject_Z h) (snd (minimum self)))
  else
    sx <- rand_in (xrange self) ;;
    sy <- (if Qeq_bool (aspect_ratio_thres self) 0 then
             r <- py_div (sx * 1) (inject_Z w) ;; ret (r * inject_Z h)
           else rand_in_yrange self) ;;
    ret (py_max sx (fst (minimum self)),
         py_max sy (snd (minimum self))).

Definition get_dest_size (self : t) (h w : Z) : M (Z * Z) :=
  d <- dest_before_rounding self h w ;;
  ret (round_half (fst d), round_half (snd d)).

(** What one pass through the body of [while True] ends with. *)
Inductive flow : Type :=
| Return (tfm : ResizeTransform)
| Continue (cnt : nat).

Definition fail_msg : string := "RandomResize failed to augment an image".

Definition body (self : t) (h w : Z) (cnt : nat) : M flow :=
  d <- get_dest_size self h w ;;
  let '(destX, destY) := d in
  if Qlt_bool 0 (aspect_ratio_thres self) then
    oldr <- py_div (inject_Z w * 1) (inject_Z h) ;;
    newr <- py_div (inject_Z destX * 1) (inject_Z destY) ;;
    diff <- py_div (Qabs (newr - oldr)) oldr ;;
    if Qle_bool (aspect_ratio_thres self + 1e-5) diff then
      let cnt := S cnt in
      if (50 <? cnt)%nat then
        logger_warn fail_msg ;;;
        ret (Return (MkResizeTransform h w h w (interp self)))
      else ret (Continue cnt)
    else ret (Return (MkResizeTransform h w destY destX (interp self)))
  else ret (Return (MkResizeTransform h w destY destX (interp self))).

(** [while True: body], unrolled at most [fuel] times; [None] when the
    fuel does not suffice. *)
Fixpoint while_true (fuel : nat) (self : t) (h w : Z) (cnt : nat) (s : world)
  : option (result ResizeTransform * world) :=
  match fuel with
  | O => None
  | S fuel' =>
      match body self h w cnt s with
      | (Ok (Return tfm), s') => Some (Ok tfm, s')
      | (Ok (Continue cnt'), s') => while_true fuel' self h w cnt' s'
      | (Raise e, s') => Some (Raise e, s')
      end
  end.

Definition _get_augment_params (fuel : nat) (self : t) (h w : Z) (s : world)
  : option (result ResizeTransform * world) :=
  while_true fuel self h w 0 s.

End RandomResize.

(** ** Images and Transpose *)

(** An image is a [numpy] array of two dimensions (height, width) or three
    (height, width, channels), held row by row. *)
Inductive ndarray : Type :=
| Arr2 (rows : list (list Z))
| Arr3 (rows : list (list (list Z))).

Definition ndim (a : ndarray) : nat :=
  match a with
  | Arr2 _ => 2
  | Arr3 _ => 3
  end.

Section Matrix.

Variable A : Type.

(** Put the column [col] in front of the matrix [m]. *)
Fixpoint cons_col (col : list A) (m : list (list A)) : list (list A) :=
  match col, m with
  | x :: col', r :: m' => (x :: r) :: cons_col col' m'
  | _, _ => []
  end.

(** The transpose of a matrix whose rows have length [w]. *)
Fixpoint transpose_w (w : nat) (m : list (list A)) : list (list A) :=
  match m with
  | [] => repeat [] w
  | r :: m' => cons_col r (transpose_w w m')
  end.

Definition width (m : list (list A)) : nat :=
  match m with
  | [] => O
  | r :: _ => length r
  end.

Definition transpose (m : list (list A)) : list (list A) :=
  transpose_w (width m) m.

(** The entry in row [i] and column [j], if there is one. *)
Definition entry (m : list (list A)) (i j : nat) : option A :=
  match nth_error m i with
  | Some r => nth_error r j
  | None => None
  end.

End Matrix.

(** [img.shape[2]] *)
Definition channels (m : list (list (list Z))) : nat :=
  match m with
  | (px :: _) :: _ => length px
  | _ => O
  end.

(** Modelled from the spec: [cv2.transpose] belongs to OpenCV, not to the
    sources.  The spec: "swap the two spatial axes (matrix transpose);
    reinstate trailing channel dimension if lost" -- OpenCV hands back a
    single-channel image as a two-dimensional array, which is the loss the
    source repairs. *)
Definition cv2_transpose (img : ndarray) : ndarray :=
  match img with
  | Arr2 m => Arr2 (transpose m)
  | Arr3 m =>
      if (channels m =? 1)%nat then Arr2 (transpose (map (map (hd 0%Z)) m))
      else Arr3 (transpose m)
  end.

(** [ret[:, :, np.newaxis]] on a two-dimensional array. *)
Definition newaxis (a : ndarray) : ndarray :=
  match a with
  | Arr2 m => Arr3 (map (map (fun v => [v])) m)
  | Arr3 _ => a
  end.

Module Transpose.

Record t : Type := Build { prob : Q }.

Definition __init__ (prob : Q) : t := Build prob.

Definition _get_augment_params (self : t) (img : ndarray) : M bool :=
  r <- _rand_range 0 1 ;;
  ret (Qlt_bool r (prob self)).

Definition _augment (self : t) (img : ndarray) (do : bool) : ndarray :=
  if do then
    let ret := cv2_transpose img in
    if (ndim img =? 3)%nat && (ndim ret =? 2)%nat then newaxis ret else ret
  else img.

Definition _augment_coords (self : t) (cs : coords) (do : bool) : coords :=
  if do then map (fun p => (snd p, fst p)) cs else cs.

End Transpose.

(** ** Vocabulary of the statements about images *)

(** A well-formed image: positive height and width, rows of one length,
    and for three dimensions at least one channel, the same number in
    every pixel. *)
Definition wf_image (img : ndarray) : Prop :=
  match img with
  | Arr2 m =>
      (0 < length m)%nat /\ (0 < width m)%nat /\
      Forall (fun r => length r = width m) m
  | Arr3 m =>
      (0 < length m)%nat /\ (0 < width m)%nat /\
      Forall (fun r => length r = width m) m /\
      (0 < channels m)%nat /\
      Forall (Forall (fun px => length px = channels m)) m
  end.

(** [img.shape[:2]] *)
Definition shape2 (img : ndarray) : nat * nat :=
  match img with
  | Arr2 m => (length m, width m)
  | Arr3 m => (length m, width m)
  end.

(** The channel values at row [i], column [j]. *)
Definition pixel (img : ndarray) (i j : nat) : option (list Z) :=
  match img with
  | Arr2 m => option_map (fun v => [v]) (entry m i j)
  | Arr3 m => entry m i j
  end.

(** The image with its two spatial axes swapped. *)
Definition spatial_transpose (img : ndarray) : ndarray :=
  match img with
  | Arr2 m => Arr2 (transpose m)
  | Arr3 m => Arr3 (transpose m)
  end.

(** ** Vocabulary of the statements about RandomResize *)

(** Two ranges compare equal, as [==] on tuples of numbers decides. *)
Definition range_eq (a b : RandomResize.range) : Prop :=
  num (fst a) == num (fst b) /\ num (snd a) == num (snd b).

(** The world after one more unit draw. *)
Definition drawn (s : world) : world :=
  {| draws := draws s; pos := S (pos s); log := log s |}.

(** The world after one more warning. *)
Definition warned (msg : string) (s : world) : world :=
  {| draws := draws s; pos := pos s; log := log s ++ [msg] |}.

(** The value [_rand_range( *r )] returns in world [s]. *)
Definition draw_in (r : RandomResize.range) (s : world) : Q :=
  num (fst r) + (num (snd r) - num (fst r)) * draws s (pos s).

(** Relative change of the aspect ratio from [w / h] to [destX / destY]. *)
Definition deviation (h w destX destY : Z) : Q :=
  Qabs (inject_Z destX / inject_Z destY - inject_Z w / inject_Z h)
  / (inject_Z w / inject_Z h).

(** The identity-size descriptor the sampler falls back to. *)
Definition identity_size (self : RandomResize.t) (h w : Z) : ResizeTransform :=
  MkResizeTransform h w h w (RandomResize.interp self).

(** The candidate drawn in world [s] can be tested (its height is not
    zero) and fails the aspect-ratio test. *)
Definition rejectedb (self : RandomResize.t) (h w : Z) (s : world) : bool :=
  match fst (RandomResize.get_dest_size self h w s) with
  | Ok (destX, destY) =>
      negb (destY =? 0)%Z &&
      Qle_bool (RandomResize.aspect_ratio_thres self + 1e-5)
               (deviation h w destX destY)
  | Raise _ => false
  end.

Definition rejected (self : RandomResize.t) (h w : Z) (s : world) : Prop :=
  exists destX destY,
    fst (RandomResize.get_dest_size self h w s) = Ok (destX, destY) /\
    destY <> 0%Z /\
    ~ deviation h w destX destY < RandomResize.aspect_ratio_thres self + 1e-5.

(** The world in which the next candidate is drawn. *)
Definition next_world (self : RandomResize.t) (h w : Z) (s : world) : world :=
  snd (RandomResize.get_dest_size self h w s).

(** The world after [k] candidates. *)
Fixpoint world_after (k : nat) (self : RandomResize.t) (h w : Z) (s : world)
  : world :=
  match k with
  | O => s
  | S k' => world_after k' self h w (next_world self h w s)
  end.

(** The first [k] candidates drawn from world [s] on are all rejected. *)
Fixpoint all_rejected (k : nat) (self : RandomResize.t) (h w : Z) (s : world)
  : Prop :=
  match k with
  | O => True
  | S k' => rejected self h w s /\ all_rejected k' self h w (next_world self h w s)
  end.

Fixpoint all_rejectedb (k : nat) (self : RandomResize.t) (h w : Z) (s : world)
  : bool :=
  match k with
  | O => true
  | S k' => rejectedb self h w s && all_rejectedb k' self h w (next_world self h w s)
  end.

(** The sampler gives up once [n] candidates in a row have been rejected:
    it then returns the identity-size descriptor, having logged the
    warning. *)
Definition fallback_after (n : nat) : Prop :=
  forall (self : RandomResize.t) (h w : Z) (s : world) (fuel : nat),
    0 < RandomResize.aspect_ratio_thres self ->
    (0 < h)%Z -> (0 < w)%Z ->
    all_rejected n self h w s ->
    (51 <= fuel)%nat ->
    exists s',
      RandomResize._get_augment_params fuel self h w s
        = Some (Ok (identity_size self h w), s') /\
      log s' = log s ++ [RandomResize.fail_msg].


(** ** Sample configurations and generators *)

(** [RandomResize((0.5, 1.5), (0.5, 1.5))], threshold 0.15. *)
Definition wide_sampler : RandomResize.t :=
  RandomResize.Build (PyFloat 0.5, PyFloat 1.5) (Some (PyFloat 0.5, PyFloat 1.5))
    (0, 0) 0.15 1 true.

(** Fifty pairs of draws [(0, 0.75)], then [0.75] for ever. *)
Definition skewed_fifty_times (n : nat) : Q :=
  if (n <? 100)%nat then (if Nat.even n then 0 else 0.75) else 0.75.

(** [RandomResize((1.0, 1.0), (1.0, 1.0), minimum=(0, 500))], threshold
    0.15: on a 100 x 100 image every candidate is 100 wide and 500 high. *)
Definition tall_floor_sampler : RandomResize.t :=
  RandomResize.Build (PyFloat 1, PyFloat 1) (Some (PyFloat 1, PyFloat 1))
    (0, 500) 0.15 1 true.

(** [RandomResize((0.1, 0.3), (0.1, 0.3))], threshold 0.15: on a 1 x 1
    image every candidate rounds to 0 x 0. *)
Definition shrinking_sampler : RandomResize.t :=
  RandomResize.Build (PyFloat 0.1, PyFloat 0.3) (Some (PyFloat 0.1, PyFloat 0.3))
    (0, 0) 0.15 1 true.

(** [RandomResize((100, 350.0), (0.9, 1.1))]: one endpoint of [xrange] is
    an [int], the other a [float]. *)
Definition mixed_sampler : RandomResize.t :=
  RandomResize.Build (PyInt 100, PyFloat 350) (Some (PyFloat 0.9, PyFloat 1.1))
    (0, 0) 0.15 1 true.

Definition constant_draws (u : Q) : world := World (fun _ => u) 0 [].

(** ** Flip: the image transform *)

Section Mirror.

Variable A : Type.

(** A matrix turned as [cv2.flip] turns it: with [code = 0] about the
    horizontal axis (the rows in reverse order), with [code > 0] about the
    vertical axis (every row reversed), with [code < 0] about both. *)
Definition flip_matrix (code : Z) (m : list (list A)) : list (list A) :=
  if (code =? 0)%Z then rev m
  else if (0 <? code)%Z then map (@rev A) m
  else rev (map (@rev A) m).

End Mirror.

(** Modelled from the spec: [cv2.flip] belongs to OpenCV, not to the
    sources.  The spec: "mirror the image along the chosen axis ...; if the
    output loses a channel dimension that the input had, reinstate a
    trailing singleton channel dimension" -- as for [cv2.transpose], a
    single-channel image comes back as a two-dimensional array. *)
Definition cv2_flip (img : ndarray) (code : Z) : ndarray :=
  match img with
  | Arr2 m => Arr2 (flip_matrix code m)
  | Arr3 m =>
      if (channels m =? 1)%nat
      then Arr2 (flip_matrix code (map (map (hd 0%Z)) m))
      else Arr3 (flip_matrix code m)
  end.

Module FlipImage.

(** [Flip._augment] *)
Definition _augment (self : Flip.t) (img : ndarray) (param : bool * Z * Z)
  : ndarray :=
  let '(do, _, _) := param in
  if do then
    let ret := cv2_flip img (Flip.code self) in
    if (ndim img =? 3)%nat && (ndim ret =? 2)%nat then newaxis ret else ret
  else img.

End FlipImage.

(** ** Resize *)

(** The argument [shape]: "(h, w) tuple or a int". *)
Inductive shape_arg : Type :=
| ShapeInt (n : Z)
| ShapePair (h w : Z).

(** Modelled from the spec: [shape2d] is defined in [utils.argtools], which
    is not among the sources.  The spec: "accepts a single integer to mean
    a square target". *)
Definition shape2d (a : shape_arg) : Z * Z :=
  match a with
  | ShapeInt n => (n, n)
  | ShapePair h w => (h, w)
  end.

Module Resize.

Record t : Type := Build { shape : Z * Z; interp : Z }.

Definition __init__ (shape : shape_arg) (interp : Z) : t :=
  Build (shape2d shape) interp.

Definition _get_augment_params (self : t) (h w : Z) : M ResizeTransform :=
  ret (MkResizeTransform h w (fst (shape self)) (snd (shape self))
         (interp self)).

End Resize.

(** ** Vocabulary of the further statements *)



(** The point lies on an image of height [h] and width [w]. *)
Definition on_image (h w : Z) (p : Q * Q) : Prop :=
  (0 <= fst p /\ fst p <= inject_Z w) /\ (0 <= snd p /\ snd p <= inject_Z h).

(** The point lies on the pixel of row [i] and column [j]. *)
Definition on_pixel (i j : nat) (p : Q * Q) : Prop :=
  (inject_Z (Z.of_nat j) <= fst p /\ fst p <= inject_Z (Z.of_nat j) + 1) /\
  (inject_Z (Z.of_nat i) <= snd p /\ snd p <= inject_Z (Z.of_nat i) + 1).

(** [img.shape[:2]] as the sampling functions receive it. *)
Definition height_of (img : ndarray) : Z := Z.of_nat (fst (shape2 img)).

Definition width_of (img : ndarray) : Z := Z.of_nat (snd (shape2 img)).

(** The image mirrored as [cv2.flip] does, the dimensions kept. *)
Definition spatial_flip (code : Z) (img : ndarray) : ndarray :=
  match img with
  | Arr2 m => Arr2 (flip_matrix code m)
  | Arr3 m => Arr3 (flip_matrix code m)
  end.

(** The warning of the constructor of [RandomResize]. *)
Definition unused_yrange_msg : string :=
  "aspect_ratio_thres==0, yrange is not used!".


(** [RandomResize((0.5, 1.5))]: no [yrange], the default threshold. *)
Definition no_yrange_sampler : RandomResize.t :=
  RandomResize.Build (PyFloat 0.5, PyFloat 1.5) None (0, 0) 0.15 1 true.



(** * Properties *)

(** ** Arithmetic lemmas *)

Lemma Qlt_bool_iff (a b : Q) : Qlt_bool a b = true <-> a < b.
Proof.
  unfold Qlt_bool. rewrite negb_true_iff.
  split; intro H.
  - apply Qnot_le_lt. intro L. apply Qle_bool_iff in L. congruence.
  - destruct (Qle_bool b a) eqn:E; trivial.
    apply Qle_bool_iff in E. exfalso. apply (Qlt_not_le _ _ H E).
Qed.

Lemma Qlt_bool_false_iff (a b : Q) : Qlt_bool a b = false <-> b <= a.
Proof.
  unfold Qlt_bool. rewrite negb_false_iff. apply Qle_bool_iff.
Qed.

Lemma Qle_bool_false_iff (a b : Q) : Qle_bool a b = false <-> b < a.
Proof.
  rewrite <- Qlt_bool_iff. unfold Qlt_bool.
  destruct (Qle_bool a b); simpl; intuition congruence.
Qed.

Lemma Qeq_bool_false_iff (a b : Q) : Qeq_bool a b = false <-> ~ a == b.
Proof.
  split.
  - apply Qeq_bool_neq.
  - intro H. destruct (Qeq_bool a b) eqn:E; trivial.
    apply Qeq_bool_eq in E. contradiction.
Qed.

#[global] Instance Qlt_bool_comp : Proper (Qeq ==> Qeq ==> eq) Qlt_bool.
Proof. intros a a' Ha b b' Hb. unfold Qlt_bool. now rewrite Ha, Hb. Qed.

#[global] Instance py_int_comp : Proper (Qeq ==> eq) py_int.
Proof.
  intros a b E. unfold py_int. rewrite E.
  destruct (Qle_bool 0 b); [apply Qfloor_comp | apply Qceiling_comp]; exact E.
Qed.

#[global] Instance round_half_comp : Proper (Qeq ==> eq) round_half.
Proof. intros a b E. unfold round_half. now rewrite E. Qed.

Lemma Qfloor_unique (q : Q) (z : Z) :
  inject_Z z <= q -> q < inject_Z (z + 1) -> Qfloor q = z.
Proof.
  intros Hlo Hhi.
  pose proof (Qfloor_le q) as F1. pose proof (Qlt_floor q) as F2.
  assert (A : (Qfloor q < z + 1)%Z).
  { rewrite Zlt_Qlt. eapply Qle_lt_trans; eassumption. }
  assert (B : (z < Qfloor q + 1)%Z).
  { rewrite Zlt_Qlt. eapply Qle_lt_trans; eassumption. }
  lia.
Qed.

(** Rounding a non-negative whole number gives it back. *)
Lemma round_half_Z (z : Z) : (0 <= z)%Z -> round_half (inject_Z z) = z.
Proof.
  intro Hz. unfold round_half, py_int.
  assert (P : 0 <= inject_Z z) by (change 0 with (inject_Z 0); now rewrite <- Zle_Qle).
  assert (L : Qle_bool 0 (inject_Z z + 0.5) = true) by (apply Qle_bool_iff; lra).
  rewrite L. apply Qfloor_unique.
  - lra.
  - rewrite inject_Z_plus. change (inject_Z 1) with 1. lra.
Qed.

Lemma inject_Z_pos_neq0 (z : Z) : (0 < z)%Z -> Qeq_bool (inject_Z z) 0 = false.
Proof.
  intro H. apply Qeq_bool_false_iff. change 0 with (inject_Z 0).
  rewrite inject_Z_injective. lia.
Qed.

(** ** Flip *)

(** C5.  [Flip(horiz, vert, prob)] raises when [horiz] and [vert] are both
    true or both false, and gives an augmentor when exactly one is true
    ([code] 1 for horizontal, 0 for vertical).  The error comes from the
    constructor: once an augmentor exists, sampling its parameters returns
    normally. *)
Theorem flip_init_fails_unless_one_axis (horiz vert : bool) (prob : Q) :
  Flip.__init__ horiz vert prob =
    (if Bool.eqb horiz vert then Raise ValueError
     else Ok (Flip.Build (if horiz then 1 else 0) prob))
  /\ forall self h w s, exists do s',
       Flip._get_augment_params self h w s = (Ok (do, h, w), s').
Proof.
  split.
  - destruct horiz, vert; reflexivity.
  - intros self h w s. unfold Flip._get_augment_params, _rand_range,
      random_sample, bind, ret. simpl. eauto.
Qed.

(** C6.  For an augmentor built by the constructor and a parameter record
    [(do, h, w)]: with [do] true, the vertical flip sends [(x, y)] to
    [(x, h - y)] and the horizontal flip sends [(x, y)] to [(w - x, y)];
    with [do] false the coordinates are returned as they are. *)
Theorem flip_augment_coords (horiz vert : bool) (prob : Q) (self : Flip.t)
    (cs : coords) (do : bool) (h w : Z) :
  Flip.__init__ horiz vert prob = Ok self ->
  Flip._augment_coords self cs (do, h, w) =
    if do then
      if vert then map (fun '(x, y) => (x, inject_Z h - y)) cs
      else map (fun '(x, y) => (inject_Z w - x, y)) cs
    else cs.
Proof.
  intro Hinit. unfold Flip._augment_coords.
  destruct do; trivial.
  destruct horiz, vert; simpl in Hinit; try discriminate;
    injection Hinit as <-; simpl; apply map_ext; intros [x y]; reflexivity.
Qed.

Lemma flip_augment_coords_witness :
  Flip.__init__ true false 0.5 = Ok (Flip.Build 1 0.5) /\
  Flip._augment_coords (Flip.Build 1 0.5) [(3, 4); (10, 0)] (true, 20%Z, 30%Z) =
    [(inject_Z 30 - 3, 4); (inject_Z 30 - 10, 0)].
Proof.
  split; [reflexivity|].
  apply (@flip_augment_coords true false 0.5 (Flip.Build 1 0.5)
           [(3, 4); (10, 0)] true 20%Z 30%Z).
  reflexivity.
Defined.

(** ** ResizeShortestEdge *)



(** ** RandomResize: construction *)

Lemma tuple_eqb_iff (a b : RandomResize.range) :
  tuple_eqb a b = true <-> range_eq a b.
Proof.
  unfold tuple_eqb, py_eqb, range_eq.
  rewrite andb_true_iff, !Qeq_bool_iff. reflexivity.
Qed.

(** C3.  The constructor of [RandomResize] raises exactly when
    [aspect_ratio_thres] is negative, or a [yrange] is given whose
    classification (scale factors or pixel counts) differs from that of
    [xrange], or [aspect_ratio_thres == 0] in scale mode with a [yrange]
    given that is not equal to [xrange].  What it raises is the failed
    assertion, before anything is logged. *)
Theorem random_resize_init_raises (xrange : RandomResize.range)
    (yrange : option RandomResize.range) (minimum : Q * Q)
    (aspect_ratio_thres : Q) (interp : Z) (s : world) :
  ((exists e s',
      RandomResize.__init__ xrange yrange minimum aspect_ratio_thres interp s
      = (Raise e, s'))
   <->
   (aspect_ratio_thres < 0
    \/ (exists yr, yrange = Some yr /\
          RandomResize.is_float xrange <> RandomResize.is_float yr)
    \/ (aspect_ratio_thres == 0 /\ RandomResize.is_float xrange = true /\
        exists yr, yrange = Some yr /\ ~ range_eq xrange yr)))
  /\
  (forall e s',
      RandomResize.__init__ xrange yrange minimum aspect_ratio_thres interp s
      = (Raise e, s') -> e = AssertionError /\ s' = s).
Proof.
  unfold RandomResize.__init__, py_assert, bind, ret, raise, logger_warn.
  destruct (Qle_bool 0 aspect_ratio_thres) eqn:Et.
  2:{ apply Qle_bool_false_iff in Et. split.
      - split; [intros _; now left | intros _; eauto].
      - intros e s' [= <- <-]. now split. }
  apply Qle_bool_iff in Et.
  assert (Nneg : ~ aspect_ratio_thres < 0) by (intro; lra).
  destruct yrange as [yr|].
  - destruct (Bool.eqb (RandomResize.is_float xrange) (RandomResize.is_float yr))
      eqn:Ef.
    2:{ apply eqb_false_iff in Ef. split.
        - split; [intros _; right; left; eauto | intros _; eauto].
        - intros e s' [= <- <-]. now split. }
    apply eqb_prop in Ef.
    destruct (Qeq_bool aspect_ratio_thres 0) eqn:E0.
    + apply Qeq_bool_iff in E0.
      destruct (RandomResize.is_float xrange) eqn:Ex.
      * simpl. rewrite orb_false_r.
        destruct (tuple_eqb xrange yr) eqn:Eq.
        -- apply tuple_eqb_iff in Eq. split.
           ++ split.
              ** intros (e & s' & H). discriminate.
              ** intros [H|[(y & [= <-] & H)|(_ & _ & y & [= <-] & H)]];
                   [contradiction | congruence | contradiction].
           ++ intros e s' H. discriminate.
        -- assert (Nq : ~ range_eq xrange yr).
           { intro H. apply tuple_eqb_iff in H. congruence. }
           split.
           ++ split; [intros _; right; right; eauto | intros _; eauto].
           ++ intros e s' [= <- <-]. now split.
      * split.
        -- split.
           ++ intros (e & s' & H). discriminate.
           ++ intros [H|[(y & [= <-] & H)|(_ & H & _)]];
                [contradiction | congruence | discriminate].
        -- intros e s' H. discriminate.
    + apply Qeq_bool_false_iff in E0. split.
      * split.
        -- intros (e & s' & H). discriminate.
        -- intros [H|[(y & [= <-] & H)|(H & _)]];
             [contradiction | congruence | contradiction].
      * intros e s' H. discriminate.
  - destruct (Qeq_bool aspect_ratio_thres 0);
      destruct (RandomResize.is_float xrange) eqn:Ex; simpl.
    all: split; [split; [intros (e & s' & H); discriminate | ]
                | intros e s' H; discriminate].
    all: intros [H|[(y & H & _)|(_ & _ & y & H & _)]];
           [contradiction | discriminate | discriminate].
Qed.

(** ** RandomResize: one candidate *)

Section Candidate.

Variable self : RandomResize.t.
Variables h w : Z.

Let thres := RandomResize.aspect_ratio_thres self.
Let minimum := RandomResize.minimum self.

Lemma rand_in_run (r : RandomResize.range) (s : world) :
  RandomResize.rand_in r s = (Ok (draw_in r s), drawn s).
Proof. reflexivity. Qed.

(** In scale mode the width candidate is the drawn factor times [w]. *)
Lemma dest_scale_width (s s1 : world) (x y : Q) :
  RandomResize._is_scale self = true ->
  RandomResize.dest_before_rounding self h w s = (Ok (x, y), s1) ->
  x = py_max (draw_in (RandomResize.xrange self) s * inject_Z w) (fst minimum).
Proof.
  intros Hsc. unfold RandomResize.dest_before_rounding. rewrite Hsc.
  unfold bind. rewrite rand_in_run.
  destruct (Qeq_bool (RandomResize.aspect_ratio_thres self) 0).
  - unfold ret. intros [= <- _ _]. reflexivity.
  - unfold RandomResize.rand_in_yrange.
    destruct (RandomResize.yrange self) as [yr|].
    + rewrite rand_in_run. unfold ret. intros [= <- _ _]. reflexivity.
    + unfold raise. discriminate.
Qed.

(** In scale mode with a threshold other than zero the height candidate is
    a second draw, from [yrange], times [h]. *)
Lemma dest_scale_height (s s1 : world) (x y : Q) :
  RandomResize._is_scale self = true ->
  Qeq_bool thres 0 = false ->
  RandomResize.dest_before_rounding self h w s = (Ok (x, y), s1) ->
  exists yr, RandomResize.yrange self = Some yr /\
    y = py_max (draw_in yr (drawn s) * inject_Z h) (snd minimum) /\
    s1 = drawn (drawn s).
Proof.
  intros Hsc H0. unfold RandomResize.dest_before_rounding. rewrite Hsc.
  unfold bind. rewrite rand_in_run. fold thres. rewrite H0.
  unfold RandomResize.rand_in_yrange.
  destruct (RandomResize.yrange self) as [yr|].
  - rewrite rand_in_run. unfold ret. intros [= _ <- <-]. eauto.
  - unfold raise. discriminate.
Qed.

(** In scale mode with [aspect_ratio_thres == 0] the height candidate is
    the same drawn factor times [h]. *)
Lemma dest_scale_height_same (s s1 : world) (x y : Q) :
  RandomResize._is_scale self = true ->
  Qeq_bool thres 0 = true ->
  RandomResize.dest_before_rounding self h w s = (Ok (x, y), s1) ->
  y = py_max (draw_in (RandomResize.xrange self) s * inject_Z h) (snd minimum).
Proof.
  intros Hsc H0. unfold RandomResize.dest_before_rounding. rewrite Hsc.
  unfold bind. rewrite rand_in_run. fold thres. rewrite H0.
  unfold ret. intros [= _ <- _]. reflexivity.
Qed.

Lemma py_max_ge_r (a b : Q) : b <= py_max a b.
Proof.
  unfold py_max. destruct (Qlt_bool a b) eqn:E.
  - apply Qle_refl.
  - now apply Qlt_bool_false_iff in E.
Qed.

(** Before rounding, a candidate is never below [minimum]. *)
Lemma dest_before_rounding_floor (s s1 : world) (x y : Q) :
  RandomResize.dest_before_rounding self h w s = (Ok (x, y), s1) ->
  fst minimum <= x /\ snd minimum <= y.
Proof.
  unfold RandomResize.dest_before_rounding, bind.
  destruct (RandomResize._is_scale self); rewrite rand_in_run.
  - destruct (if Qeq_bool (RandomResize.aspect_ratio_thres self) 0
              then ret (draw_in (RandomResize.xrange self) s)
              else RandomResize.rand_in_yrange self) as [[sy|e] s2];
      [|discriminate].
    unfold ret. intros [= <- <- _]. split; apply py_max_ge_r.
  - destruct (if Qeq_bool (RandomResize.aspect_ratio_thres self) 0
              then
                bind (py_div (draw_in (RandomResize.xrange self) s * 1)
                        (inject_Z w))
                     (fun r => ret (r * inject_Z h))
              else RandomResize.rand_in_yrange self) as [[sy|e] s2];
      [|discriminate].
    unfold ret. intros [= <- <- _]. split; apply py_max_ge_r.
Qed.

(** In scale mode with [aspect_ratio_thres == 0] one draw scales both
    directions. *)
Lemma get_dest_size_scale_exact (s : world) :
  RandomResize._is_scale self = true ->
  Qeq_bool thres 0 = true ->
  RandomResize.get_dest_size self h w s =
    (Ok (round_half (py_max (draw_in (RandomResize.xrange self) s * inject_Z w)
                            (fst minimum)),
         round_half (py_max (draw_in (RandomResize.xrange self) s * inject_Z h)
                            (snd minimum))),
     drawn s).
Proof.
  intros Hsc H0.
  unfold RandomResize.get_dest_size, RandomResize.dest_before_rounding, bind.
  rewrite Hsc, rand_in_run. fold thres. rewrite H0. reflexivity.
Qed.

(** Without a positive threshold the first candidate is returned. *)
Lemma body_untested (cnt : nat) (s s1 : world) (destX destY : Z) :
  Qlt_bool 0 thres = false ->
  RandomResize.get_dest_size self h w s = (Ok (destX, destY), s1) ->
  RandomResize.body self h w cnt s =
    (Ok (RandomResize.Return
           (MkResizeTransform h w destY destX (RandomResize.interp self))),
     s1).
Proof.
  intros Ht Hd. unfold RandomResize.body, bind. rewrite Hd.
  fold thres. rewrite Ht. reflexivity.
Qed.

End Candidate.

(** ** RandomResize: the loop *)

Lemma inject_Z_pos (z : Z) : (0 < z)%Z -> 0 < inject_Z z.
Proof. intro H. change 0 with (inject_Z 0). now rewrite <- Zlt_Qlt. Qed.

Lemma inject_Z_neq0 (z : Z) : z <> 0%Z -> Qeq_bool (inject_Z z) 0 = false.
Proof.
  intro H. apply Qeq_bool_false_iff. change 0 with (inject_Z 0).
  now rewrite inject_Z_injective.
Qed.

Lemma ratio_neq0 (h w : Z) :
  (0 < h)%Z -> (0 < w)%Z -> Qeq_bool (inject_Z w * 1 / inject_Z h) 0 = false.
Proof.
  intros Hh Hw. apply Qeq_bool_false_iff.
  apply inject_Z_pos in Hh, Hw.
  assert (P : 0 < inject_Z w * 1 / inject_Z h).
  { apply Qlt_shift_div_l; lra. }
  intro E. rewrite E in P. now apply Qlt_irrefl in P.
Qed.

Section Loop.

Variable self : RandomResize.t.
Variables h w : Z.

Let thres := RandomResize.aspect_ratio_thres self.

Hypothesis thres_pos : 0 < thres.
Hypothesis h_pos : (0 < h)%Z.
Hypothesis w_pos : (0 < w)%Z.

(** One pass of the loop on a candidate whose height is not zero. *)
Lemma body_tested (cnt : nat) (s s1 : world) (destX destY : Z) :
  RandomResize.get_dest_size self h w s = (Ok (destX, destY), s1) ->
  destY <> 0%Z ->
  RandomResize.body self h w cnt s =
    if Qle_bool (thres + 1e-5) (deviation h w destX destY) then
      if (50 <? S cnt)%nat then
        (Ok (RandomResize.Return (identity_size self h w)),
         warned RandomResize.fail_msg s1)
      else (Ok (RandomResize.Continue (S cnt)), s1)
    else
      (Ok (RandomResize.Return
             (MkResizeTransform h w destY destX (RandomResize.interp self))),
       s1).
Proof.
  intros Hd Hy. unfold RandomResize.body, bind. rewrite Hd.
  fold thres. apply Qlt_bool_iff in thres_pos. rewrite thres_pos.
  unfold py_div. rewrite inject_Z_pos_neq0 by exact h_pos.
  unfold ret at 1. rewrite inject_Z_neq0 by exact Hy.
  unfold ret at 1. rewrite ratio_neq0 by assumption.
  unfold ret at 1.
  assert (E : Qabs (inject_Z destX * 1 / inject_Z destY
                    - inject_Z w * 1 / inject_Z h)
              / (inject_Z w * 1 / inject_Z h)
              == deviation h w destX destY).
  { unfold deviation. now rewrite !Qmult_1_r. }
  rewrite (Qleb_comp _ _ (Qeq_refl (thres + 1e-5)) _ _ E).
  destruct (Qle_bool (thres + 1e-5) (deviation h w destX destY)); trivial.
  destruct (50 <? S cnt)%nat; reflexivity.
Qed.

Lemma rejected_run (s : world) :
  rejected self h w s ->
  exists destX destY,
    RandomResize.get_dest_size self h w s
      = (Ok (destX, destY), next_world self h w s) /\
    destY <> 0%Z /\
    Qle_bool (thres + 1e-5) (deviation h w destX destY) = true.
Proof.
  intros (dx & dy & Hd & Hy & Hdev). exists dx, dy.
  unfold next_world. split; [|split; trivial].
  - destruct (RandomResize.get_dest_size self h w s) as [r s']. simpl in *.
    now subst r.
  - apply Qle_bool_iff. apply Qnot_lt_le. exact Hdev.
Qed.

Lemma rejectedb_iff (s : world) :
  rejectedb self h w s = true <-> rejected self h w s.
Proof.
  unfold rejectedb, rejected.
  destruct (fst (RandomResize.get_dest_size self h w s)) as [[dx dy]|e].
  - rewrite andb_true_iff, negb_true_iff, Z.eqb_neq, Qle_bool_iff. split.
    + intros [Hy Hd]. exists dx, dy. repeat split; trivial.
      now apply Qle_not_lt.
    + intros (dx' & dy' & [= <- <-] & Hy & Hd). split; trivial.
      now apply Qnot_lt_le.
  - split; [discriminate | intros (dx & dy & H & _); discriminate].
Qed.

Lemma all_rejectedb_iff (k : nat) (s : world) :
  all_rejectedb k self h w s = true <-> all_rejected k self h w s.
Proof.
  revert s. induction k as [|k IH]; intro s; simpl.
  - tauto.
  - rewrite andb_true_iff, rejectedb_iff, IH. reflexivity.
Qed.

Lemma world_after_S (k : nat) (s : world) :
  world_after (S k) self h w s = next_world self h w (world_after k self h w s).
Proof.
  revert s. induction k as [|k IH]; intro s; [reflexivity|].
  change (world_after (S (S k)) self h w s)
    with (world_after (S k) self h w (next_world self h w s)).
  rewrite IH. reflexivity.
Qed.

Lemma all_rejected_S (k : nat) (s : world) :
  all_rejected (S k) self h w s <->
  all_rejected k self h w s /\ rejected self h w (world_after k self h w s).
Proof.
  revert s. induction k as [|k IH]; intro s.
  - simpl. tauto.
  - change (all_rejected (S (S k)) self h w s)
      with (rejected self h w s
            /\ all_rejected (S k) self h w (next_world self h w s)).
    rewrite IH. simpl. tauto.
Qed.

(** [k] rejections in a row take the loop [k] passes further, as long as
    the counter stays within its bound. *)
Lemma while_true_rejections (k fuel cnt : nat) (s : world) :
  all_rejected k self h w s ->
  (cnt + k <= 50)%nat ->
  RandomResize.while_true (k + fuel) self h w cnt s =
  RandomResize.while_true fuel self h w (cnt + k) (world_after k self h w s).
Proof.
  revert cnt s. induction k as [|k IH]; intros cnt s Hrej Hle.
  - now rewrite Nat.add_0_r.
  - destruct Hrej as [Hr Hrest].
    destruct (rejected_run Hr) as (dx & dy & Hd & Hy & Hdev).
    simpl. rewrite (@body_tested cnt s _ dx dy Hd Hy), Hdev.
    replace (50 <? S cnt)%nat with false by (symmetry; apply Nat.ltb_ge; lia).
    rewrite IH by (trivial; lia).
    now replace (S cnt + k)%nat with (cnt + S k)%nat by lia.
Qed.

(** The rejection that takes the counter past 50 ends the loop with the
    identity-size descriptor and a warning. *)
Lemma while_true_gives_up (fuel : nat) (s : world) :
  rejected self h w s ->
  RandomResize.while_true (S fuel) self h w 50 s =
  Some (Ok (identity_size self h w),
        warned RandomResize.fail_msg (next_world self h w s)).
Proof.
  intro Hr. destruct (rejected_run Hr) as (dx & dy & Hd & Hy & Hdev).
  simpl. rewrite (@body_tested 50%nat s _ dx dy Hd Hy), Hdev. reflexivity.
Qed.

Lemma sampler_gives_up (fuel : nat) (s : world) :
  all_rejected 51 self h w s ->
  (51 <= fuel)%nat ->
  RandomResize._get_augment_params fuel self h w s =
  Some (Ok (identity_size self h w),
        warned RandomResize.fail_msg (world_after 51 self h w s)).
Proof.
  intros Hrej Hfuel. apply all_rejected_S in Hrej. destruct Hrej as [H50 H51].
  unfold RandomResize._get_augment_params.
  replace fuel with (50 + S (fuel - 51))%nat by lia.
  rewrite (@while_true_rejections 50 (S (fuel - 51)) 0 s H50) by lia.
  rewrite while_true_gives_up by exact H51.
  now rewrite world_after_S.
Qed.

End Loop.

(** A pass that does not return has counted one more rejection, the
    counter staying within its bound. *)
Lemma body_continue (self : RandomResize.t) (h w : Z) (cnt c : nat)
    (s s' : world) :
  RandomResize.body self h w cnt s = (Ok (RandomResize.Continue c), s') ->
  c = S cnt /\ (S cnt <= 50)%nat.
Proof.
  unfold RandomResize.body, bind.
  destruct (RandomResize.get_dest_size self h w s) as [[[dx dy]|e] s1];
    [|discriminate].
  destruct (Qlt_bool 0 (RandomResize.aspect_ratio_thres self)); [|discriminate].
  unfold py_div.
  destruct (Qeq_bool (inject_Z h) 0); [discriminate|]. unfold ret at 1.
  destruct (Qeq_bool (inject_Z dy) 0); [discriminate|]. unfold ret at 1.
  destruct (Qeq_bool (inject_Z w * 1 / inject_Z h) 0); [discriminate|].
  unfold ret at 1.
  destruct (Qle_bool _ _); [|discriminate].
  destruct (50 <? S cnt)%nat eqn:E; [discriminate|].
  apply Nat.ltb_ge in E. unfold ret. intros [= <- _]. now split.
Qed.

(** The loop ends: started with the counter at [cnt], it needs at most
    [51 - cnt] passes (and at least one). *)
Lemma while_true_terminates (self : RandomResize.t) (h w : Z)
    (fuel cnt : nat) (s : world) :
  (51 <= fuel + cnt)%nat -> (1 <= fuel)%nat ->
  exists r, RandomResize.while_true fuel self h w cnt s = Some r.
Proof.
  revert cnt s. induction fuel as [|fuel IH]; intros cnt s H51 H1; [lia|].
  simpl.
  destruct (RandomResize.body self h w cnt s) as [[[tfm|c]|e] s'] eqn:E;
    eauto.
  apply body_continue in E. destruct E as [-> Hle].
  apply IH; lia.
Qed.

(** Drawing a candidate writes nothing to the log. *)
Lemma next_world_log (self : RandomResize.t) (h w : Z) (s : world) :
  log (next_world self h w s) = log s.
Proof.
  unfold next_world, RandomResize.get_dest_size, RandomResize.dest_before_rounding,
    RandomResize.rand_in_yrange, py_div, bind, ret, raise.
  destruct (RandomResize._is_scale self); rewrite rand_in_run;
    destruct (Qeq_bool (RandomResize.aspect_ratio_thres self) 0);
    try destruct (RandomResize.yrange self) as [yr|];
    try rewrite rand_in_run;
    try destruct (Qeq_bool (inject_Z w) 0);
    reflexivity.
Qed.

Lemma world_after_log (k : nat) (self : RandomResize.t) (h w : Z) (s : world) :
  log (world_after k self h w s) = log s.
Proof.
  revert s. induction k as [|k IH]; intro s; [reflexivity|].
  simpl. now rewrite IH, next_world_log.
Qed.

(** ** RandomResize: the claims about the fallback *)

Lemma wide_sampler_constructed (s : world) :
  RandomResize.__init__ (PyFloat 0.5, PyFloat 1.5) (Some (PyFloat 0.5, PyFloat 1.5))
    (0, 0) 0.15 1 s = (Ok wide_sampler, s).
Proof. reflexivity. Qed.

Lemma tall_floor_sampler_constructed (s : world) :
  RandomResize.__init__ (PyFloat 1, PyFloat 1) (Some (PyFloat 1, PyFloat 1))
    (0, 500) 0.15 1 s = (Ok tall_floor_sampler, s).
Proof. reflexivity. Qed.

Lemma shrinking_sampler_constructed (s : world) :
  RandomResize.__init__ (PyFloat 0.1, PyFloat 0.3) (Some (PyFloat 0.1, PyFloat 0.3))
    (0, 0) 0.15 1 s = (Ok shrinking_sampler, s).
Proof. reflexivity. Qed.

(** C1, as stated, fails: after 50 rejections the sampler draws once more,
    and when that 51st candidate passes the test it is returned.  Here
    [RandomResize((0.5, 1.5), (0.5, 1.5))] on a 100 x 100 image rejects
    50 x 125 fifty times and then returns 125 x 125. *)
Lemma fifty_rejections_do_not_give_up : ~ fallback_after 50.
Proof.
  intro H.
  destruct (H wide_sampler 100%Z 100%Z (World skewed_fifty_times 0 []) 51%nat)
    as (s' & Hrun & _).
  - reflexivity.
  - lia.
  - lia.
  - apply all_rejectedb_iff. vm_compute. reflexivity.
  - lia.
  - assert (C : option_map fst
                  (RandomResize._get_augment_params 51 wide_sampler 100 100
                     (World skewed_fifty_times 0 []))
                = Some (Ok (MkResizeTransform 100 100 125 125 1))).
    { vm_compute. reflexivity. }
    rewrite Hrun in C. simpl in C. discriminate C.
Qed.

(** C1, amended.  For an image of positive height [h] and width [w] and a
    configuration with [aspect_ratio_thres > 0]: when 51 candidates in a row
    are rejected, [_get_augment_params] returns (it does not raise) the
    identity-size descriptor from [(h, w)] to [(h, w)]; no candidate is
    drawn after the 51st, and the warning is the one line added to the
    log. *)
Theorem random_resize_gives_up_after_51 (self : RandomResize.t) (h w : Z)
    (s : world) (fuel : nat) :
  0 < RandomResize.aspect_ratio_thres self ->
  (0 < h)%Z -> (0 < w)%Z ->
  all_rejected 51 self h w s ->
  (51 <= fuel)%nat ->
  exists s',
    RandomResize._get_augment_params fuel self h w s
      = Some (Ok (MkResizeTransform h w h w (RandomResize.interp self)), s') /\
    s' = warned RandomResize.fail_msg (world_after 51 self h w s) /\
    log s' = log s ++ [RandomResize.fail_msg].
Proof.
  intros Ht Hh Hw Hrej Hfuel. eexists. split; [|split; [reflexivity|]].
  - apply sampler_gives_up; assumption.
  - unfold warned. cbn [log]. now rewrite world_after_log.
Qed.

Lemma random_resize_gives_up_after_51_witness :
  exists s',
    RandomResize._get_augment_params 51 tall_floor_sampler 100 100
      (constant_draws 0.5)
      = Some (Ok (MkResizeTransform 100 100 100 100 1), s') /\
    log s' = [RandomResize.fail_msg].
Proof.
  destruct (@random_resize_gives_up_after_51 tall_floor_sampler 100 100
              (constant_draws 0.5) 51)
    as (s' & Hrun & _ & Hlog).
  - reflexivity.
  - lia.
  - lia.
  - apply all_rejectedb_iff. vm_compute. reflexivity.
  - lia.
  - exists s'. split; [exact Hrun | exact Hlog].
Defined.

(** ** RandomResize: the acceptance test *)


(** A candidate of height zero is not tested at all: computing its aspect
    ratio divides by zero.  [RandomResize((0.1, 0.3), (0.1, 0.3))] on a
    1 x 1 image. *)
Example zero_height_candidate_raises :
  RandomResize.get_dest_size shrinking_sampler 1 1 (constant_draws 0.5)
    = (Ok (0%Z, 0%Z), drawn (drawn (constant_draws 0.5))) /\
  RandomResize._get_augment_params 51 shrinking_sampler 1 1 (constant_draws 0.5)
    = Some (Raise ZeroDivisionError, drawn (drawn (constant_draws 0.5))).
Proof. split; vm_compute; reflexivity. Qed.



(** ** RandomResize: the floor [minimum] *)

(** C10.  Before rounding, every sampled candidate is at least [minimum] in
    both directions; the fallback is not: when 51 candidates in a row are
    rejected the destination is [(h, w)] whatever [minimum] is, also when
    [h] or [w] lies below it. *)
Theorem fallback_ignores_minimum (self : RandomResize.t) (h w : Z) (s : world) :
  (forall x y s1,
      RandomResize.dest_before_rounding self h w s = (Ok (x, y), s1) ->
      fst (RandomResize.minimum self) <= x /\
      snd (RandomResize.minimum self) <= y)
  /\
  (0 < RandomResize.aspect_ratio_thres self ->
   (0 < h)%Z -> (0 < w)%Z ->
   all_rejected 51 self h w s ->
   forall fuel, (51 <= fuel)%nat ->
   exists tfm s',
     RandomResize._get_augment_params fuel self h w s = Some (Ok tfm, s') /\
     dst_h tfm = h /\ dst_w tfm = w).
Proof.
  split.
  - intros x y s1 H. exact (dest_before_rounding_floor _ _ _ _ H).
  - intros Ht Hh Hw Hrej fuel Hfuel.
    exists (identity_size self h w). eexists. split.
    + apply sampler_gives_up; assumption.
    + split; reflexivity.
Qed.

Lemma fallback_ignores_minimum_witness :
  inject_Z 100 < snd (RandomResize.minimum tall_floor_sampler) /\
  exists tfm s',
    RandomResize._get_augment_params 51 tall_floor_sampler 100 100
      (constant_draws 0.25) = Some (Ok tfm, s') /\
    dst_h tfm = 100%Z /\ dst_w tfm = 100%Z.
Proof.
  split; [reflexivity|].
  destruct (fallback_ignores_minimum tall_floor_sampler 100 100
              (constant_draws 0.25)) as [_ H].
  apply H.
  - reflexivity.
  - lia.
  - lia.
  - apply all_rejectedb_iff. vm_compute. reflexivity.
  - lia.
Defined.

(** ** RandomResize: scale factors or pixel counts *)

Lemma random_resize_init_ok (xrange : RandomResize.range)
    (yrange : option RandomResize.range) (minimum : Q * Q)
    (aspect_ratio_thres : Q) (interp : Z) (s s' : world) (self : RandomResize.t) :
  RandomResize.__init__ xrange yrange minimum aspect_ratio_thres interp s
    = (Ok self, s') ->
  self = RandomResize.Build xrange yrange minimum aspect_ratio_thres interp
           (RandomResize.is_float xrange).
Proof.
  unfold RandomResize.__init__, py_assert, bind, ret, raise, logger_warn.
  destruct (Qle_bool 0 aspect_ratio_thres); [|discriminate].
  destruct yrange as [yr|].
  - destruct (Bool.eqb _ _); [|discriminate].
    destruct (Qeq_bool aspect_ratio_thres 0).
    + destruct (RandomResize.is_float xrange).
      * destruct (_ || _); [|discriminate]. now intros [= <- _].
      * now intros [= <- _].
    + now intros [= <- _].
  - destruct (Qeq_bool aspect_ratio_thres 0).
    + destruct (RandomResize.is_float xrange).
      * destruct (_ || _); [|discriminate]. now intros [= <- _].
      * now intros [= <- _].
    + now intros [= <- _].
Qed.

(** C9.  A range is taken for scale factors as soon as one of its two
    endpoints is a float: the augmentor built from such an [xrange] is in
    scale mode, and every candidate it draws is made of drawn numbers times
    the image dimensions (floored by [minimum]), not of the drawn numbers
    themselves: the width is the draw from [xrange] times [w]; the height
    is that same draw times [h] when [aspect_ratio_thres == 0], and
    otherwise a second draw, from [yrange], times [h]. *)
Theorem mixed_range_is_scale (a b : pyval) (yrange : option RandomResize.range)
    (minimum : Q * Q) (aspect_ratio_thres : Q) (interp : Z) (s s' : world)
    (self : RandomResize.t) :
  isinstance_float a = true \/ isinstance_float b = true ->
  RandomResize.__init__ (a, b) yrange minimum aspect_ratio_thres interp s
    = (Ok self, s') ->
  RandomResize._is_scale self = true /\
  forall h w s0 x y s1,
    RandomResize.dest_before_rounding self h w s0 = (Ok (x, y), s1) ->
    x = py_max (draw_in (a, b) s0 * inject_Z w) (fst minimum) /\
    (aspect_ratio_thres == 0 ->
     y = py_max (draw_in (a, b) s0 * inject_Z h) (snd minimum)) /\
    (~ aspect_ratio_thres == 0 ->
     exists yr, yrange = Some yr /\
       y = py_max (draw_in yr (drawn s0) * inject_Z h) (snd minimum)).
Proof.
  intros Hf Hinit. apply random_resize_init_ok in Hinit. subst self.
  assert (Hsc : RandomResize.is_float (a, b) = true).
  { unfold RandomResize.is_float. cbn [fst snd]. apply orb_true_iff. exact Hf. }
  split; [exact Hsc|].
  intros h w s0 x y s1 H. split; [|split].
  - refine (@dest_scale_width _ h w s0 s1 x y _ H). exact Hsc.
  - intro E0. apply Qeq_bool_iff in E0.
    refine (@dest_scale_height_same _ h w s0 s1 x y _ _ H); assumption.
  - intro N0. apply Qeq_bool_false_iff in N0.
    set (self := RandomResize.Build (a, b) yrange minimum aspect_ratio_thres
                   interp (RandomResize.is_float (a, b))) in *.
    destruct (@dest_scale_height self h w s0 s1 x y Hsc N0 H)
      as (yr & Hy & Ey & _).
    exists yr. split; assumption.
Qed.

Lemma mixed_range_is_scale_witness :
  RandomResize._is_scale mixed_sampler = true /\
  fst (RandomResize.get_dest_size mixed_sampler 10 10 (constant_draws 0.5))
    = Ok (2250%Z, 10%Z).
Proof.
  destruct (@mixed_range_is_scale (PyInt 100) (PyFloat 350)
              (Some (PyFloat 0.9, PyFloat 1.1)) (0, 0) 0.15 1
              (constant_draws 0.5) (constant_draws 0.5) mixed_sampler)
    as [Hsc _].
  - right. reflexivity.
  - reflexivity.
  - split; [exact Hsc | vm_compute; reflexivity].
Defined.

(** ** RandomResize: the degenerate range *)

Lemma py_max_0_nonneg (a : Q) : 0 <= a -> py_max a 0 = a.
Proof.
  intro H. unfold py_max.
  replace (Qlt_bool a 0) with false; trivial.
  symmetry. now apply Qlt_bool_false_iff.
Qed.

Lemma round_unit_scale (u : Q) (z : Z) :
  (0 < z)%Z ->
  round_half (py_max ((num (PyFloat 1.0) + (num (PyFloat 1.0) - num (PyFloat 1.0)) * u)
                      * inject_Z z) 0) = z.
Proof.
  intro Hz. pose proof (inject_Z_pos Hz) as P.
  assert (E : (num (PyFloat 1.0) + (num (PyFloat 1.0) - num (PyFloat 1.0)) * u)
              * inject_Z z == inject_Z z).
  { cbn [num]. setoid_replace 1.0 with 1 by reflexivity. ring. }
  rewrite py_max_0_nonneg by (rewrite E; lra).
  rewrite E. apply round_half_Z. lia.
Qed.

(** C8.  [RandomResize((1.0, 1.0), (1.0, 1.0), aspect_ratio_thres=0)] with the
    default [minimum = (0, 0)] can be constructed, and on an image of
    positive height [h] and width [w] every sampling call, whatever the
    generator delivers, returns the descriptor from [(h, w)] to [(h, w)]. *)
Theorem unit_scale_keeps_size (interp h w : Z) (s0 s : world) (fuel : nat) :
  (0 < h)%Z -> (0 < w)%Z ->
  exists self,
    RandomResize.__init__ (PyFloat 1.0, PyFloat 1.0)
      (Some (PyFloat 1.0, PyFloat 1.0)) (0, 0) 0 interp s0 = (Ok self, s0) /\
    RandomResize._get_augment_params (S fuel) self h w s
      = Some (Ok (MkResizeTransform h w h w interp), drawn s).
Proof.
  intros Hh Hw.
  exists (RandomResize.Build (PyFloat 1.0, PyFloat 1.0)
            (Some (PyFloat 1.0, PyFloat 1.0)) (0, 0) 0 interp true).
  split; [reflexivity|].
  unfold RandomResize._get_augment_params. cbn [RandomResize.while_true].
  rewrite (@body_untested _ h w 0 s (drawn s) w h).
  - reflexivity.
  - reflexivity.
  - rewrite get_dest_size_scale_exact by reflexivity.
    unfold draw_in.
    cbn [RandomResize.xrange RandomResize.minimum fst snd].
    now rewrite !round_unit_scale by assumption.
Qed.

Lemma unit_scale_keeps_size_witness :
  exists self,
    RandomResize.__init__ (PyFloat 1.0, PyFloat 1.0)
      (Some (PyFloat 1.0, PyFloat 1.0)) (0, 0) 0 1 (constant_draws 0.3)
      = (Ok self, constant_draws 0.3) /\
    RandomResize._get_augment_params 1 self 480 640 (constant_draws 0.3)
      = Some (Ok (MkResizeTransform 480 640 480 640 1),
              drawn (constant_draws 0.3)).
Proof.
  apply (@unit_scale_keeps_size 1 480 640 (constant_draws 0.3)
           (constant_draws 0.3) 0); lia.
Defined.

(** ** Matrices *)

Section MatrixFacts.

Context {A : Type}.

Lemma cons_col_length (c : list A) (m : list (list A)) :
  length (cons_col c m) = Nat.min (length c) (length m).
Proof.
  revert m. induction c as [|x c IH]; intros [|r m]; simpl; auto.
Qed.

Lemma cons_col_rows (k : nat) (c : list A) (m : list (list A)) :
  Forall (fun r => length r = k) m ->
  Forall (fun r => length r = S k) (cons_col c m).
Proof.
  revert m. induction c as [|x c IH]; intros [|r m] H; simpl; auto.
  inversion H; subst. constructor; simpl; auto.
Qed.

Lemma cons_col_nth_error (c : list A) (m : list (list A)) (j : nat) :
  nth_error (cons_col c m) j =
    match nth_error c j, nth_error m j with
    | Some x, Some r => Some (x :: r)
    | _, _ => None
    end.
Proof.
  revert m j. induction c as [|x c IH]; intros [|r m] [|j]; simpl; auto.
  - now destruct (nth_error c j).
Qed.

Lemma transpose_w_length (w : nat) (m : list (list A)) :
  Forall (fun r => length r = w) m -> length (transpose_w w m) = w.
Proof.
  induction 1 as [|r m Hr Hm IH]; simpl.
  - apply repeat_length.
  - rewrite cons_col_length, IH, Hr. apply Nat.min_id.
Qed.

Lemma transpose_w_rows (w : nat) (m : list (list A)) :
  Forall (fun c => length c = length m) (transpose_w w m).
Proof.
  induction m as [|r m IH]; simpl.
  - apply Forall_forall. intros c Hc. apply repeat_spec in Hc. now subst.
  - now apply cons_col_rows.
Qed.

Lemma transpose_w_cons_col (k : nat) (c : list A) (m : list (list A)) :
  length c = length m ->
  transpose_w (S k) (cons_col c m) = c :: transpose_w k m.
Proof.
  revert m. induction c as [|x c IH]; intros [|r m] H; simpl in *;
    try discriminate; trivial.
  rewrite IH by lia. reflexivity.
Qed.

Lemma transpose_w_empty_rows (w : nat) :
  transpose_w 0 (repeat (@nil A) w) = [].
Proof. destruct w; reflexivity. Qed.

(** Transposing twice gives the matrix back. *)
Lemma transpose_w_involutive (w : nat) (m : list (list A)) :
  Forall (fun r => length r = w) m ->
  transpose_w (length m) (transpose_w w m) = m.
Proof.
  induction 1 as [|r m Hr Hm IH]; simpl.
  - apply transpose_w_empty_rows.
  - rewrite transpose_w_cons_col.
    + now rewrite IH.
    + now rewrite transpose_w_length.
Qed.

(** The entry [(j, i)] of the transpose is the entry [(i, j)]. *)
Lemma transpose_w_entry (w : nat) (m : list (list A)) (i j : nat) :
  Forall (fun r => length r = w) m ->
  entry (transpose_w w m) j i = entry m i j.
Proof.
  intro H. revert i. induction H as [|r m Hr Hm IH]; intro i.
  - unfold entry. simpl.
    destruct (nth_error (repeat [] w) j) as [c|] eqn:E.
    + apply nth_error_In, repeat_spec in E. subst c. now destruct i.
    + now destruct i.
  - unfold entry at 1. simpl. rewrite cons_col_nth_error.
    destruct (nth_error r j) as [x|] eqn:Er.
    + destruct (nth_error (transpose_w w m) j) as [c|] eqn:Ec.
      * destruct i as [|i]; unfold entry; simpl; [now rewrite Er|].
        specialize (IH i). unfold entry in IH. now rewrite Ec in IH.
      * exfalso. apply nth_error_None in Ec.
        rewrite transpose_w_length in Ec by exact Hm.
        assert (j < length r)%nat by (apply nth_error_Some; congruence). lia.
    + destruct i as [|i]; unfold entry; simpl; [now rewrite Er|].
      specialize (IH i). unfold entry in IH. rewrite <- IH.
      replace (nth_error (transpose_w w m) j) with (@None (list A)); trivial.
      symmetry. apply nth_error_None. rewrite transpose_w_length by exact Hm.
      apply nth_error_None in Er. lia.
Qed.

Lemma width_transpose_w (w : nat) (m : list (list A)) :
  (0 < w)%nat -> Forall (fun r => length r = w) m ->
  width (transpose_w w m) = length m.
Proof.
  intros Hw H.
  pose proof (transpose_w_length H) as L.
  pose proof (transpose_w_rows w m) as R.
  destruct (transpose_w w m) as [|c t]; simpl in *; [lia|].
  now inversion R.
Qed.

Lemma transpose_involutive (m : list (list A)) :
  (0 < width m)%nat -> Forall (fun r => length r = width m) m ->
  transpose (transpose m) = m.
Proof.
  intros Hw H. unfold transpose at 1.
  unfold transpose. rewrite width_transpose_w by assumption.
  now apply transpose_w_involutive.
Qed.

End MatrixFacts.

Lemma cons_col_map {A B : Type} (f : A -> B) (c : list A) (m : list (list A)) :
  cons_col (map f c) (map (map f) m) = map (map f) (cons_col c m).
Proof.
  revert m. induction c as [|x c IH]; intros [|r m]; simpl; trivial.
  now rewrite IH.
Qed.

Lemma transpose_w_map {A B : Type} (f : A -> B) (w : nat) (m : list (list A)) :
  transpose_w w (map (map f) m) = map (map f) (transpose_w w m).
Proof.
  induction m as [|r m IH]; simpl.
  - induction w as [|w IHw]; simpl; [trivial | now rewrite IHw].
  - now rewrite IH, cons_col_map.
Qed.

Lemma width_map {A B : Type} (f : A -> B) (m : list (list A)) :
  width (map (map f) m) = width m.
Proof. destruct m; simpl; [trivial | apply length_map]. Qed.

Lemma transpose_map {A B : Type} (f : A -> B) (m : list (list A)) :
  transpose (map (map f) m) = map (map f) (transpose m).
Proof. unfold transpose. now rewrite width_map, transpose_w_map. Qed.

Lemma cons_col_Forall2 {A : Type} (P : A -> Prop) (c : list A)
    (m : list (list A)) :
  Forall P c -> Forall (Forall P) m -> Forall (Forall P) (cons_col c m).
Proof.
  revert m. induction c as [|x c IH]; intros [|r m] Hc Hm; simpl; auto.
  inversion Hc; inversion Hm; subst. constructor; auto.
Qed.

Lemma transpose_w_Forall2 {A : Type} (P : A -> Prop) (w : nat)
    (m : list (list A)) :
  Forall (Forall P) m -> Forall (Forall P) (transpose_w w m).
Proof.
  induction 1 as [|r m Hr Hm IH]; simpl.
  - apply Forall_forall. intros c Hc. apply repeat_spec in Hc. now subst.
  - now apply cons_col_Forall2.
Qed.

(** ** Transpose *)

Lemma single_channel_pixels (m : list (list (list Z))) :
  Forall (Forall (fun px => length px = 1%nat)) m ->
  map (map (fun v => [v])) (map (map (hd 0%Z)) m) = m.
Proof.
  intro H. rewrite map_map.
  rewrite <- (map_id m) at 2. apply map_ext_in. intros r Hr.
  rewrite map_map. rewrite <- (map_id r) at 2. apply map_ext_in. intros px Hpx.
  rewrite Forall_forall in H. specialize (H r Hr).
  rewrite Forall_forall in H. specialize (H px Hpx).
  destruct px as [|v [|v' px]]; simpl in *; try discriminate; reflexivity.
Qed.

(** With [do] set, the image transform swaps the two spatial axes and
    keeps the number of dimensions. *)
Lemma augment_is_spatial_transpose (self : Transpose.t) (img : ndarray) :
  wf_image img -> Transpose._augment self img true = spatial_transpose img.
Proof.
  destruct img as [m|m]; intro Hwf; unfold Transpose._augment, cv2_transpose.
  - reflexivity.
  - destruct Hwf as (_ & _ & _ & _ & Hpx).
    destruct (channels m =? 1)%nat eqn:E.
    + apply Nat.eqb_eq in E. rewrite E in Hpx. simpl.
      rewrite <- transpose_map, single_channel_pixels by exact Hpx.
      reflexivity.
    + reflexivity.
Qed.

Lemma channels_entry (m : list (list (list Z))) :
  channels m = match entry m 0 0 with Some px => length px | None => O end.
Proof. destruct m as [|[|px r] m]; reflexivity. Qed.

Lemma transpose_entry {A : Type} (m : list (list A)) (i j : nat) :
  Forall (fun r => length r = width m) m ->
  entry (transpose m) i j = entry m j i.
Proof. intro H. unfold transpose. now apply transpose_w_entry. Qed.

Lemma wf_spatial_transpose (img : ndarray) :
  wf_image img -> wf_image (spatial_transpose img).
Proof.
  destruct img as [m|m]; simpl.
  - intros (Hh & Hw & Hr). unfold transpose.
    rewrite transpose_w_length, width_transpose_w by assumption.
    repeat split; trivial. apply transpose_w_rows.
  - intros (Hh & Hw & Hr & Hc & Hpx).
    assert (Ec : channels (transpose m) = channels m).
    { rewrite !channels_entry. now rewrite transpose_entry. }
    rewrite Ec. unfold transpose.
    rewrite transpose_w_length, width_transpose_w by assumption.
    repeat split; trivial.
    + apply transpose_w_rows.
    + now apply transpose_w_Forall2.
Qed.

Lemma spatial_transpose_involutive (img : ndarray) :
  wf_image img -> spatial_transpose (spatial_transpose img) = img.
Proof.
  destruct img as [m|m]; simpl.
  - intros (_ & Hw & Hr). now rewrite transpose_involutive.
  - intros (_ & Hw & Hr & _). now rewrite transpose_involutive.
Qed.

Lemma shape2_spatial_transpose (img : ndarray) :
  wf_image img ->
  shape2 (spatial_transpose img) = (snd (shape2 img), fst (shape2 img)).
Proof.
  destruct img as [m|m]; simpl.
  - intros (_ & Hw & Hr). unfold transpose.
    now rewrite transpose_w_length, width_transpose_w.
  - intros (_ & Hw & Hr & _). unfold transpose.
    now rewrite transpose_w_length, width_transpose_w.
Qed.

Lemma pixel_spatial_transpose (img : ndarray) (i j : nat) :
  wf_image img -> pixel (spatial_transpose img) i j = pixel img j i.
Proof.
  destruct img as [m|m]; simpl.
  - intros (_ & _ & Hr). now rewrite transpose_entry.
  - intros (_ & _ & Hr & _). now rewrite transpose_entry.
Qed.

(** C7.  [Transpose(prob=1.0)] on a well-formed image [img], a coordinate
    set [cs] and a generator whose draws lie in [[0, 1)]: sampling always
    decides to transpose; the image transform returns the transpose of
    [img] (same number of dimensions, height and width exchanged, the pixel
    at row [i], column [j] being the one of [img] at row [j], column [i]);
    the coordinate transform sends every [(x, y)] to [(y, x)]; and each of
    the two transforms, applied twice, gives back what it started from. *)
Theorem transpose_prob_one (img : ndarray) (cs : coords) (s : world) :
  wf_image img ->
  unit_draws s ->
  let self := Transpose.__init__ 1.0 in
  let out := Transpose._augment self img true in
  Transpose._get_augment_params self img s = (Ok true, drawn s) /\
  (ndim out = ndim img /\
   shape2 out = (snd (shape2 img), fst (shape2 img)) /\
   forall i j, pixel out i j = pixel img j i) /\
  Transpose._augment_coords self cs true = map (fun '(x, y) => (y, x)) cs /\
  Transpose._augment self out true = img /\
  Transpose._augment_coords self (Transpose._augment_coords self cs true) true
    = cs.
Proof.
  intros Hwf Hu self out.
  assert (Hout : out = spatial_transpose img)
    by (apply augment_is_spatial_transpose; exact Hwf).
  split; [|split; [|split; [|split]]].
  - unfold Transpose._get_augment_params, _rand_range, random_sample, bind, ret.
    cbn [Transpose.prob self Transpose.__init__].
    replace (Qlt_bool _ _) with true; [reflexivity|].
    symmetry. apply Qlt_bool_iff.
    destruct (Hu (pos s)) as [_ Hlt].
    setoid_replace 1.0 with 1 by reflexivity. lra.
  - rewrite Hout. split; [now destruct img | split].
    + now apply shape2_spatial_transpose.
    + intros i j. now apply pixel_spatial_transpose.
  - unfold Transpose._augment_coords. apply map_ext. now intros [x y].
  - rewrite Hout, augment_is_spatial_transpose
      by (apply wf_spatial_transpose; exact Hwf).
    now apply spatial_transpose_involutive.
  - unfold Transpose._augment_coords. rewrite map_map.
    rewrite <- (map_id cs) at 2. apply map_ext. now intros [x y].
Qed.

Lemma transpose_prob_one_witness :
  Transpose._augment (Transpose.__init__ 1.0)
    (Arr3 [[[1%Z]; [2%Z]; [3%Z]]; [[4%Z]; [5%Z]; [6%Z]]]) true
  = Arr3 [[[1%Z]; [4%Z]]; [[2%Z]; [5%Z]]; [[3%Z]; [6%Z]]] /\
  Transpose._augment (Transpose.__init__ 1.0)
    (Arr3 [[[1%Z]; [4%Z]]; [[2%Z]; [5%Z]]; [[3%Z]; [6%Z]]]) true
  = Arr3 [[[1%Z]; [2%Z]; [3%Z]]; [[4%Z]; [5%Z]; [6%Z]]] /\
  Transpose._augment_coords (Transpose.__init__ 1.0) [(1, 2); (3, 4)] true
  = [(2, 1); (4, 3)].
Proof.
  destruct (@transpose_prob_one
              (Arr3 [[[1%Z]; [2%Z]; [3%Z]]; [[4%Z]; [5%Z]; [6%Z]]])
              [(1, 2); (3, 4)] (constant_draws 0.5))
    as (_ & _ & Hc & Hinv & _).
  - simpl. repeat split; try lia; repeat constructor.
  - intro n. simpl. split; [discriminate | reflexivity].
  - split; [reflexivity | split; [exact Hinv | exact Hc]].
Defined.

(** * Further properties of the code *)

(** ** Flip: sampling and coordinates *)

Lemma unit_range_draw (u p : Q) : Qlt_bool (0 + (1 - 0) * u) p = Qlt_bool u p.
Proof. apply Qlt_bool_comp; [ring | reflexivity]. Qed.

Lemma flip_code_built (horiz vert : bool) (prob : Q) (self : Flip.t) :
  Flip.__init__ horiz vert prob = Ok self ->
  Flip.code self = (if vert then 0 else 1)%Z /\ Flip.prob self = prob.
Proof.
  destruct horiz, vert; simpl; intro H; try discriminate;
    injection H as <-; split; reflexivity.
Qed.

(** X1.  [Flip._get_augment_params] takes exactly one draw [u], logs
    nothing and returns [(do, h, w)] where [do] holds exactly when
    [u < prob]; with draws in [[0, 1)], a probability of 0 or less never
    flips and a probability of 1 or more always does. *)
Theorem flip_sampling_law (self : Flip.t) (h w : Z) (s : world) :
  unit_draws s ->
  exists do,
    Flip._get_augment_params self h w s = (Ok (do, h, w), drawn s) /\
    (do = true <-> draws s (pos s) < Flip.prob self) /\
    (Flip.prob self <= 0 -> do = false) /\
    (1 <= Flip.prob self -> do = true).
Proof.
  intro Hu. destruct (Hu (pos s)) as [Hlo Hhi].
  exists (Qlt_bool (draws s (pos s)) (Flip.prob self)).
  split; [|split; [|split]].
  - unfold Flip._get_augment_params, _rand_range, random_sample, bind, ret.
    cbn [draws pos log]. now rewrite unit_range_draw.
  - apply Qlt_bool_iff.
  - intro Hp. apply Qlt_bool_false_iff. lra.
  - intro Hp. apply Qlt_bool_iff. lra.
Qed.

Lemma flip_sampling_law_witness :
  exists do,
    Flip._get_augment_params (Flip.Build 1 0) 480 640 (constant_draws 0.5)
      = (Ok (do, 480%Z, 640%Z), drawn (constant_draws 0.5)) /\
    do = false.
Proof.
  destruct (@flip_sampling_law (Flip.Build 1 0) 480 640 (constant_draws 0.5))
    as (do & Hrun & _ & Hnever & _).
  - intro n. simpl. split; [discriminate | reflexivity].
  - exists do. split; [exact Hrun|]. apply Hnever. simpl. discriminate.
Defined.



(** X3.  [Flip._augment_coords] keeps the number of points, and points
    lying on the image ([0 <= x <= w], [0 <= y <= h]) are sent to points
    lying on the image, whatever the augmentor and the decision. *)
Theorem flip_coords_stay_on_image (self : Flip.t) (cs : coords) (do : bool)
    (h w : Z) :
  Forall (on_image h w) cs ->
  length (Flip._augment_coords self cs (do, h, w)) = length cs /\
  Forall (on_image h w) (Flip._augment_coords self cs (do, h, w)).
Proof.
  intro H. unfold Flip._augment_coords.
  destruct do; [|split; trivial].
  destruct (Flip.code self =? 0)%Z; [|destruct (Flip.code self =? 1)%Z];
    try (split; trivial; fail); (split; [apply length_map|]).
  - induction H as [|[x y] cs [[X0 X1] [Y0 Y1]] Hcs IH]; simpl; constructor;
      trivial.
    unfold on_image in *. simpl in *. repeat split; lra.
  - induction H as [|[x y] cs [[X0 X1] [Y0 Y1]] Hcs IH]; simpl; constructor;
      trivial.
    unfold on_image in *. simpl in *. repeat split; lra.
Qed.

Lemma flip_coords_stay_on_image_witness :
  Forall (on_image 20 30)
    (Flip._augment_coords (Flip.Build 1 0.5) [(3, 4); (30, 0)]
       (true, 20%Z, 30%Z)).
Proof.
  apply (@flip_coords_stay_on_image (Flip.Build 1 0.5) [(3, 4); (30, 0)] true
           20 30).
  repeat constructor; simpl; discriminate.
Defined.

(** ** Transpose: sampling *)

(** X4.  [Transpose._get_augment_params] takes exactly one draw [u], logs
    nothing and decides to transpose exactly when [u < prob]; with draws in
    [[0, 1)], a probability of 0 or less never transposes, and then the
    image and the coordinates are returned as they are. *)
Theorem transpose_sampling_law (self : Transpose.t) (img : ndarray)
    (cs : coords) (s : world) :
  unit_draws s ->
  exists do,
    Transpose._get_augment_params self img s = (Ok do, drawn s) /\
    (do = true <-> draws s (pos s) < Transpose.prob self) /\
    (1 <= Transpose.prob self -> do = true) /\
    (Transpose.prob self <= 0 ->
     do = false /\
     Transpose._augment self img do = img /\
     Transpose._augment_coords self cs do = cs).
Proof.
  intro Hu. destruct (Hu (pos s)) as [Hlo Hhi].
  exists (Qlt_bool (draws s (pos s)) (Transpose.prob self)).
  split; [|split; [|split]].
  - unfold Transpose._get_augment_params, _rand_range, random_sample, bind, ret.
    cbn [draws pos log]. now rewrite unit_range_draw.
  - apply Qlt_bool_iff.
  - intro Hp. apply Qlt_bool_iff. lra.
  - intro Hp.
    assert (E : Qlt_bool (draws s (pos s)) (Transpose.prob self) = false)
      by (apply Qlt_bool_false_iff; lra).
    rewrite E. repeat split.
Qed.

Lemma transpose_sampling_law_witness :
  exists do,
    Transpose._get_augment_params (Transpose.__init__ 0) (Arr2 [[1%Z; 2%Z]])
      (constant_draws 0.5) = (Ok do, drawn (constant_draws 0.5)) /\
    Transpose._augment (Transpose.__init__ 0) (Arr2 [[1%Z; 2%Z]]) do
      = Arr2 [[1%Z; 2%Z]].
Proof.
  destruct (@transpose_sampling_law (Transpose.__init__ 0) (Arr2 [[1%Z; 2%Z]])
              [] (constant_draws 0.5))
    as (do & Hrun & _ & _ & Hnever).
  - intro n. simpl. split; [discriminate | reflexivity].
  - exists do. split; [exact Hrun|].
    destruct Hnever as (_ & Himg & _); [simpl; discriminate | exact Himg].
Defined.

(** ** Flip: the image *)

Lemma width_rect {A : Type} (m : list (list A)) (w : nat) :
  (0 < length m)%nat -> Forall (fun r => length r = w) m -> width m = w.
Proof.
  destruct m as [|r m]; simpl; [lia|]. intros _ H. now inversion H.
Qed.

Lemma channels_rect (m : list (list (list Z))) (c : nat) :
  (0 < length m)%nat -> (0 < width m)%nat ->
  Forall (Forall (fun px => length px = c)) m -> channels m = c.
Proof.
  destruct m as [|[|px r] m]; simpl; try lia. intros _ _ H.
  inversion H as [|? ? Hr _]; subst. now inversion Hr.
Qed.

Lemma flip_matrix_length {A : Type} (code : Z) (m : list (list A)) :
  length (flip_matrix code m) = length m.
Proof.
  unfold flip_matrix.
  destruct (code =? 0)%Z; [|destruct (0 <? code)%Z];
    now rewrite ?length_rev, ?length_map.
Qed.

Lemma flip_matrix_rows {A : Type} (P : list A -> Prop) (code : Z)
    (m : list (list A)) :
  (forall r, P r -> P (rev r)) ->
  Forall P m -> Forall P (flip_matrix code m).
Proof.
  intros HP H.
  assert (Hm : Forall P (map (@rev A) m)).
  { induction H; simpl; constructor; auto. }
  unfold flip_matrix.
  destruct (code =? 0)%Z; [|destruct (0 <? code)%Z]; trivial;
    now apply Forall_rev.
Qed.

Lemma flip_matrix_map {A B : Type} (f : A -> B) (code : Z) (m : list (list A)) :
  flip_matrix code (map (map f) m) = map (map f) (flip_matrix code m).
Proof.
  assert (E : map (@rev B) (map (map f) m) = map (map f) (map (@rev A) m)).
  { rewrite !map_map. apply map_ext. intro r. symmetry. apply map_rev. }
  unfold flip_matrix.
  destruct (code =? 0)%Z; [|destruct (0 <? code)%Z].
  - symmetry. apply map_rev.
  - exact E.
  - rewrite E. symmetry. apply map_rev.
Qed.

Lemma flip_matrix_involutive {A : Type} (code : Z) (m : list (list A)) :
  flip_matrix code (flip_matrix code m) = m.
Proof.
  assert (E : forall l : list (list A), map (@rev A) (map (@rev A) l) = l).
  { intro l. rewrite map_map. rewrite <- (map_id l) at 2.
    apply map_ext. intro r. apply rev_involutive. }
  unfold flip_matrix.
  destruct (code =? 0)%Z; [|destruct (0 <? code)%Z].
  - apply rev_involutive.
  - apply E.
  - rewrite <- map_rev, rev_involutive. apply E.
Qed.

Lemma entry_rev {A : Type} (m : list (list A)) (i j : nat) :
  (i < length m)%nat -> entry (rev m) i j = entry m (length m - S i) j.
Proof.
  intro Hi. unfold entry. rewrite nth_error_rev.
  apply Nat.ltb_lt in Hi. now rewrite Hi.
Qed.

Lemma entry_map_rev {A : Type} (w : nat) (m : list (list A)) (i j : nat) :
  Forall (fun r => length r = w) m -> (j < w)%nat ->
  entry (map (@rev A) m) i j = entry m i (w - S j).
Proof.
  intros H Hj. unfold entry. rewrite nth_error_map.
  destruct (nth_error m i) as [r|] eqn:E; simpl; trivial.
  rewrite Forall_forall in H.
  rewrite nth_error_rev, (H r (nth_error_In _ _ E)).
  apply Nat.ltb_lt in Hj. now rewrite Hj.
Qed.

Lemma wf_spatial_flip (code : Z) (img : ndarray) :
  wf_image img -> wf_image (spatial_flip code img).
Proof.
  assert (Hlen : forall (A : Type) (k : nat) (r : list A),
             length r = k -> length (rev r) = k)
    by (intros; now rewrite length_rev).
  destruct img as [m|m]; simpl.
  - intros (Hh & Hw & Hr).
    assert (Hr' : Forall (fun r => length r = width m) (flip_matrix code m))
      by (apply flip_matrix_rows; auto).
    assert (Hl := flip_matrix_length code m).
    assert (Ew : width (flip_matrix code m) = width m)
      by (apply width_rect; [lia | exact Hr']).
    rewrite Ew, Hl. auto.
  - intros (Hh & Hw & Hr & Hc & Hpx).
    assert (Hr' : Forall (fun r => length r = width m) (flip_matrix code m))
      by (apply flip_matrix_rows; auto).
    assert (Hl := flip_matrix_length code m).
    assert (Hpx' : Forall (Forall (fun px => length px = channels m))
                     (flip_matrix code m)).
    { apply flip_matrix_rows; trivial. intros r. apply Forall_rev. }
    assert (Ew : width (flip_matrix code m) = width m)
      by (apply width_rect; [lia | exact Hr']).
    assert (Ec : channels (flip_matrix code m) = channels m)
      by (apply channels_rect; [lia | lia | exact Hpx']).
    rewrite Ew, Ec, Hl. auto.
Qed.

(** With [do] set, the image transform mirrors the image and keeps the
    number of dimensions. *)
Lemma augment_is_spatial_flip (self : Flip.t) (img : ndarray) (h w : Z) :
  wf_image img ->
  FlipImage._augment self img (true, h, w) = spatial_flip (Flip.code self) img.
Proof.
  destruct img as [m|m]; intro Hwf; unfold FlipImage._augment, cv2_flip.
  - reflexivity.
  - destruct Hwf as (_ & _ & _ & _ & Hpx).
    destruct (channels m =? 1)%nat eqn:E.
    + apply Nat.eqb_eq in E. rewrite E in Hpx. simpl.
      rewrite <- flip_matrix_map, single_channel_pixels by exact Hpx.
      reflexivity.
    + reflexivity.
Qed.

Lemma shape2_spatial_flip (code : Z) (img : ndarray) :
  wf_image img -> shape2 (spatial_flip code img) = shape2 img.
Proof.
  intro Hwf.
  destruct img as [m|m]; simpl in *.
  - destruct Hwf as (Hh & _ & Hr).
    rewrite flip_matrix_length. f_equal.
    apply width_rect; [rewrite flip_matrix_length; lia|].
    apply flip_matrix_rows; trivial. intros r Hlen. now rewrite length_rev.
  - destruct Hwf as (Hh & _ & Hr & _).
    rewrite flip_matrix_length. f_equal.
    apply width_rect; [rewrite flip_matrix_length; lia|].
    apply flip_matrix_rows; trivial. intros r Hlen. now rewrite length_rev.
Qed.

Lemma pixel_spatial_flip_rows (img : ndarray) (i j : nat) :
  (i < fst (shape2 img))%nat ->
  pixel (spatial_flip 0 img) i j = pixel img (fst (shape2 img) - S i) j.
Proof.
  destruct img as [m|m]; simpl; intro Hi; unfold flip_matrix; simpl;
    now rewrite entry_rev.
Qed.

Lemma pixel_spatial_flip_columns (img : ndarray) (i j : nat) :
  wf_image img -> (j < snd (shape2 img))%nat ->
  pixel (spatial_flip 1 img) i j = pixel img i (snd (shape2 img) - S j).
Proof.
  destruct img as [m|m]; simpl; unfold flip_matrix; simpl.
  - intros (_ & _ & Hr) Hj. now rewrite (@entry_map_rev _ (width m) m i _ Hr Hj).
  - intros (_ & _ & Hr & _) Hj. now rewrite (@entry_map_rev _ (width m) m i _ Hr Hj).
Qed.

(** X5.  For an augmentor built by the constructor and a well-formed
    image, [Flip._augment] with [do] set returns an image of the same
    number of dimensions and the same shape; for a vertical flip its pixel
    in row [i] is the one of row [H - 1 - i] of the input, for a horizontal
    flip its pixel in column [j] is the one of column [W - 1 - j]; and
    mirroring twice gives the input back. *)
Theorem flip_image_mirrors (horiz vert : bool) (prob : Q) (self : Flip.t)
    (img : ndarray) (h w : Z) :
  Flip.__init__ horiz vert prob = Ok self ->
  wf_image img ->
  let out := FlipImage._augment self img (true, h, w) in
  ndim out = ndim img /\
  shape2 out = shape2 img /\
  (forall i j,
      (i < fst (shape2 img))%nat -> (j < snd (shape2 img))%nat ->
      pixel out i j =
        if vert then pixel img (fst (shape2 img) - S i) j
        else pixel img i (snd (shape2 img) - S j)) /\
  FlipImage._augment self out (true, h, w) = img.
Proof.
  intros Hinit Hwf out.
  apply flip_code_built in Hinit. destruct Hinit as [Hc _].
  assert (Hout : out = spatial_flip (Flip.code self) img)
    by (apply augment_is_spatial_flip; exact Hwf).
  split; [|split; [|split]].
  - rewrite Hout. now destruct img.
  - rewrite Hout. now apply shape2_spatial_flip.
  - intros i j Hi Hj. rewrite Hout, Hc. destruct vert.
    + now apply pixel_spatial_flip_rows.
    + now apply pixel_spatial_flip_columns.
  - rewrite Hout, augment_is_spatial_flip by (apply wf_spatial_flip; exact Hwf).
    destruct img; simpl; now rewrite flip_matrix_involutive.
Qed.

Lemma flip_image_mirrors_witness :
  FlipImage._augment (Flip.Build 1 0.5)
    (Arr3 [[[1%Z]; [2%Z]; [3%Z]]; [[4%Z]; [5%Z]; [6%Z]]]) (true, 2%Z, 3%Z)
  = Arr3 [[[3%Z]; [2%Z]; [1%Z]]; [[6%Z]; [5%Z]; [4%Z]]] /\
  FlipImage._augment (Flip.Build 1 0.5)
    (Arr3 [[[3%Z]; [2%Z]; [1%Z]]; [[6%Z]; [5%Z]; [4%Z]]]) (true, 2%Z, 3%Z)
  = Arr3 [[[1%Z]; [2%Z]; [3%Z]]; [[4%Z]; [5%Z]; [6%Z]]].
Proof.
  destruct (@flip_image_mirrors true false 0.5 (Flip.Build 1 0.5)
              (Arr3 [[[1%Z]; [2%Z]; [3%Z]]; [[4%Z]; [5%Z]; [6%Z]]]) 2 3)
    as (_ & _ & _ & Hinv).
  - reflexivity.
  - simpl. repeat split; try lia; repeat constructor.
  - split; [reflexivity | exact Hinv].
Defined.

Lemma inject_nat_mirror (n i : nat) :
  (i < n)%nat ->
  inject_Z (Z.of_nat (n - S i))
  == inject_Z (Z.of_nat n) - inject_Z (Z.of_nat i) - 1.
Proof.
  intro H.
  replace (Z.of_nat (n - S i)) with (Z.of_nat n + - Z.of_nat i + - 1)%Z by lia.
  rewrite !inject_Z_plus, !inject_Z_opp. change (inject_Z 1) with 1. ring.
Qed.

(** X6.  The coordinate transform follows the image transform: for an
    augmentor built by the constructor, a well-formed image and the
    parameters [(True, h, w)] sampled from it, a point lying on the pixel
    of row [i] and column [j] is sent onto the pixel to which [Flip._augment]
    moves that pixel -- row [H - 1 - i] for a vertical flip, column
    [W - 1 - j] for a horizontal one. *)
Theorem flip_point_follows_pixel (horiz vert : bool) (prob : Q)
    (self : Flip.t) (img : ndarray) (i j : nat) (p : Q * Q) :
  Flip.__init__ horiz vert prob = Ok self ->
  wf_image img ->
  (i < fst (shape2 img))%nat -> (j < snd (shape2 img))%nat ->
  on_pixel i j p ->
  let param := (true, height_of img, width_of img) in
  let i' := if vert then (fst (shape2 img) - S i)%nat else i in
  let j' := if vert then j else (snd (shape2 img) - S j)%nat in
  exists p',
    Flip._augment_coords self [p] param = [p'] /\
    on_pixel i' j' p' /\
    pixel (FlipImage._augment self img param) i' j' = pixel img i j.
Proof.
  intros Hinit Hwf Hi Hj [[X0 X1] [Y0 Y1]] param i' j'.
  apply flip_code_built in Hinit. destruct Hinit as [Hc _].
  unfold param. rewrite augment_is_spatial_flip by exact Hwf.
  unfold Flip._augment_coords. rewrite Hc.
  destruct p as [x y]. simpl in X0, X1, Y0, Y1.
  destruct vert; simpl; eexists; (split; [reflexivity|]); split.
  - unfold on_pixel, i', j', height_of. simpl.
    rewrite (inject_nat_mirror Hi). repeat split; lra.
  - unfold i', j'. rewrite pixel_spatial_flip_rows by lia.
    f_equal. lia.
  - unfold on_pixel, i', j', width_of. simpl.
    rewrite (inject_nat_mirror Hj). repeat split; lra.
  - unfold i', j'. rewrite pixel_spatial_flip_columns by (trivial; lia).
    f_equal. lia.
Qed.

Lemma flip_point_follows_pixel_witness :
  exists p',
    Flip._augment_coords (Flip.Build 1 0.5) [(0.5, 1.5)] (true, 2%Z, 3%Z)
      = [p'] /\
    on_pixel 1 2 p'.
Proof.
  destruct (@flip_point_follows_pixel true false 0.5 (Flip.Build 1 0.5)
              (Arr2 [[1%Z; 2%Z; 3%Z]; [4%Z; 5%Z; 6%Z]]) 1 0 (0.5, 1.5))
    as (p' & Hrun & Hon & _).
  - reflexivity.
  - simpl. repeat split; try lia; repeat constructor.
  - simpl. lia.
  - simpl. lia.
  - repeat split; simpl; discriminate.
  - exists p'. split; [exact Hrun | exact Hon].
Defined.

(** ** Rounding *)

Lemma py_int_mono (x y : Q) : x <= y -> (py_int x <= py_int y)%Z.
Proof.
  intro H. unfold py_int.
  destruct (Qle_bool 0 x) eqn:Ex; destruct (Qle_bool 0 y) eqn:Ey.
  - now apply Qfloor_resp_le.
  - apply Qle_bool_iff in Ex. apply Qle_bool_false_iff in Ey. lra.
  - apply Qle_bool_false_iff in Ex. apply Qle_bool_iff in Ey.
    assert (A : (Qceiling x <= 0)%Z).
    { rewrite <- (Qceiling_Z 0). apply Qceiling_resp_le.
      change (inject_Z 0) with 0. lra. }
    assert (B : (0 <= Qfloor y)%Z).
    { rewrite <- (Qfloor_Z 0). apply Qfloor_resp_le.
      change (inject_Z 0) with 0. exact Ey. }
    lia.
  - now apply Qceiling_resp_le.
Qed.

Lemma round_half_mono (x y : Q) : x <= y -> (round_half x <= round_half y)%Z.
Proof. intro H. unfold round_half. apply py_int_mono. lra. Qed.


(** ** ResizeShortestEdge *)

Lemma resize_shortest_edge_run (self : ResizeShortestEdge.t) (h w : Z)
    (s : world) :
  (0 < h)%Z -> (0 < w)%Z ->
  let size := ResizeShortestEdge.size self in
  let other d :=
    round_half (inject_Z size / inject_Z (Z.min h w) * inject_Z d) in
  ResizeShortestEdge._get_augment_params self h w s =
    (Ok (if (h <? w)%Z
         then MkResizeTransform h w size (other w)
                (ResizeShortestEdge.interp self)
         else MkResizeTransform h w (other h) size
                (ResizeShortestEdge.interp self)), s).
Proof.
  intros Hh Hw size other.
  unfold ResizeShortestEdge._get_augment_params, py_div, bind, ret, raise.
  rewrite inject_Z_pos_neq0 by lia. fold size.
  assert (E : forall d,
    round_half (inject_Z size * 1 / inject_Z (Z.min h w) * inject_Z d) = other d).
  { intro d. unfold other. apply round_half_comp. now rewrite Qmult_1_r. }
  destruct (h <? w)%Z; now rewrite E.
Qed.

Lemma scaled_edge_ge (size m d : Z) :
  (0 <= size)%Z -> (0 < m)%Z -> (m <= d)%Z ->
  inject_Z size <= inject_Z size / inject_Z m * inject_Z d.
Proof.
  intros Hs Hm Hd.
  assert (S0 : 0 <= inject_Z size)
    by (change 0 with (inject_Z 0); now rewrite <- Zle_Qle).
  assert (M0 : 0 < inject_Z m) by now apply inject_Z_pos.
  assert (MD : inject_Z m <= inject_Z d) by now rewrite <- Zle_Qle.
  assert (E : inject_Z size / inject_Z m * inject_Z d
              == inject_Z size + inject_Z size * ((inject_Z d - inject_Z m) / inject_Z m)).
  { field. lra. }
  rewrite E.
  assert (P : 0 <= inject_Z size * ((inject_Z d - inject_Z m) / inject_Z m)).
  { apply Qmult_le_0_compat; trivial.
    apply Qle_shift_div_l; trivial. lra. }
  lra.
Qed.

(** X7.  An image without height or without width makes
    [ResizeShortestEdge._get_augment_params] raise [ZeroDivisionError]. *)
Theorem resize_shortest_edge_zero_dimension (self : ResizeShortestEdge.t)
    (h w : Z) (s : world) :
  Z.min h w = 0%Z ->
  ResizeShortestEdge._get_augment_params self h w s
    = (Raise ZeroDivisionError, s).
Proof.
  intro H. unfold ResizeShortestEdge._get_augment_params, py_div, bind, raise.
  rewrite H. reflexivity.
Qed.

Lemma resize_shortest_edge_zero_dimension_witness :
  ResizeShortestEdge._get_augment_params
    (ResizeShortestEdge.__init__ (PyInt 50) 1) 0 80 (constant_draws 0)
    = (Raise ZeroDivisionError, constant_draws 0).
Proof.
  apply (@resize_shortest_edge_zero_dimension
           (ResizeShortestEdge.__init__ (PyInt 50) 1) 0 80 (constant_draws 0)).
  reflexivity.
Defined.

(** X8.  For a target [size >= 0] and an image of positive height and
    width, the shortest edge of the destination is exactly [size], and the
    orientation is kept: a destination of an image that is at most as high
    as wide is at most as high as wide, and conversely. *)
Theorem resize_shortest_edge_is_shortest (self : ResizeShortestEdge.t)
    (h w : Z) (s : world) :
  (0 < h)%Z -> (0 < w)%Z -> (0 <= ResizeShortestEdge.size self)%Z ->
  exists tfm,
    ResizeShortestEdge._get_augment_params self h w s = (Ok tfm, s) /\
    Z.min (dst_h tfm) (dst_w tfm) = ResizeShortestEdge.size self /\
    ((h <= w)%Z -> (dst_h tfm <= dst_w tfm)%Z) /\
    ((w <= h)%Z -> (dst_w tfm <= dst_h tfm)%Z).
Proof.
  intros Hh Hw Hs. eexists. split; [now apply resize_shortest_edge_run|].
  assert (G : forall d, (Z.min h w <= d)%Z ->
    (ResizeShortestEdge.size self
     <= round_half (inject_Z (ResizeShortestEdge.size self)
                    / inject_Z (Z.min h w) * inject_Z d))%Z).
  { intros d Hd. rewrite <- (round_half_Z Hs) at 1.
    apply round_half_mono. apply scaled_edge_ge; lia. }
  destruct (Z.ltb_spec h w) as [L|L]; cbn [dst_h dst_w].
  - specialize (G w ltac:(lia)). repeat split; lia.
  - specialize (G h ltac:(lia)). repeat split; try lia.
    intro Hle. assert (h = w) by lia. subst w.
    rewrite Z.min_id in *.
    assert (E : inject_Z (ResizeShortestEdge.size self) / inject_Z h * inject_Z h
                == inject_Z (ResizeShortestEdge.size self)).
    { field. intro Z0. apply Qeq_bool_iff in Z0.
      rewrite inject_Z_pos_neq0 in Z0 by lia. discriminate. }
    rewrite (round_half_comp E), round_half_Z by exact Hs. lia.
Qed.

Lemma resize_shortest_edge_is_shortest_witness :
  exists tfm,
    ResizeShortestEdge._get_augment_params
      (ResizeShortestEdge.__init__ (PyInt 50) 1) 80 40 (constant_draws 0)
      = (Ok tfm, constant_draws 0) /\
    Z.min (dst_h tfm) (dst_w tfm) = 50%Z.
Proof.
  destruct (@resize_shortest_edge_is_shortest
              (ResizeShortestEdge.__init__ (PyInt 50) 1) 80 40
              (constant_draws 0))
    as (tfm & Hrun & Hmin & _).
  - lia.
  - lia.
  - simpl. lia.
  - exists tfm. split; [exact Hrun | exact Hmin].
Defined.




Lemma round_unit_scaled (size d : Z) :
  (0 < size)%Z -> (0 <= d)%Z ->
  round_half (inject_Z size / inject_Z size * inject_Z d) = d.
Proof.
  intros Hs Hd.
  assert (E : inject_Z size / inject_Z size * inject_Z d == inject_Z d).
  { field. intro Z0. apply Qeq_bool_iff in Z0.
    rewrite inject_Z_pos_neq0 in Z0 by lia. discriminate. }
  rewrite (round_half_comp E). now apply round_half_Z.
Qed.

Lemma longer_edge_ge (size h w d : Z) :
  (0 < h)%Z -> (0 < w)%Z -> (0 <= size)%Z -> (Z.min h w <= d)%Z ->
  (size <= round_half (inject_Z size / inject_Z (Z.min h w) * inject_Z d))%Z.
Proof.
  intros Hh Hw Hs Hd. rewrite <- (round_half_Z Hs) at 1.
  apply round_half_mono. apply scaled_edge_ge; lia.
Qed.

(** X10.  [ResizeShortestEdge] is idempotent on shapes: for a target
    [size > 0] and an image of positive height and width, sampling again on
    an image of the destination's size asks for no further change. *)
Theorem resize_shortest_edge_idempotent (self : ResizeShortestEdge.t)
    (h w : Z) (s : world) :
  (0 < h)%Z -> (0 < w)%Z -> (0 < ResizeShortestEdge.size self)%Z ->
  exists tfm,
    ResizeShortestEdge._get_augment_params self h w s = (Ok tfm, s) /\
    ResizeShortestEdge._get_augment_params self (dst_h tfm) (dst_w tfm) s
      = (Ok (MkResizeTransform (dst_h tfm) (dst_w tfm) (dst_h tfm) (dst_w tfm)
               (ResizeShortestEdge.interp self)), s).
Proof.
  intros Hh Hw Hs. eexists.
  split; [now apply resize_shortest_edge_run|].
  set (size := ResizeShortestEdge.size self) in *.
  destruct (Z.ltb_spec h w) as [L|L]; cbn [dst_h dst_w].
  - set (w' := round_half (inject_Z size / inject_Z (Z.min h w) * inject_Z w)).
    assert (G : (size <= w')%Z) by (apply longer_edge_ge; lia).
    rewrite resize_shortest_edge_run by lia. fold size.
    rewrite Z.min_l by lia.
    destruct (Z.ltb_spec size w') as [L'|L'].
    + now rewrite round_unit_scaled by lia.
    + assert (E : w' = size) by lia.
      rewrite round_unit_scaled by lia. now rewrite E.
  - set (h' := round_half (inject_Z size / inject_Z (Z.min h w) * inject_Z h)).
    assert (G : (size <= h')%Z) by (apply longer_edge_ge; lia).
    rewrite resize_shortest_edge_run by lia. fold size.
    rewrite Z.min_r by lia.
    destruct (Z.ltb_spec h' size) as [L'|L']; [lia|].
    now rewrite round_unit_scaled by lia.
Qed.

Lemma resize_shortest_edge_idempotent_witness :
  exists tfm,
    ResizeShortestEdge._get_augment_params
      (ResizeShortestEdge.__init__ (PyInt 50) 1) 30 47 (constant_draws 0)
      = (Ok tfm, constant_draws 0) /\
    ResizeShortestEdge._get_augment_params
      (ResizeShortestEdge.__init__ (PyInt 50) 1) (dst_h tfm) (dst_w tfm)
      (constant_draws 0)
      = (Ok (MkResizeTransform (dst_h tfm) (dst_w tfm) (dst_h tfm) (dst_w tfm)
               1), constant_draws 0).
Proof.
  apply (@resize_shortest_edge_idempotent
           (ResizeShortestEdge.__init__ (PyInt 50) 1) 30 47 (constant_draws 0));
    simpl; lia.
Defined.

(** ** Resize *)

(** X11.  On a square image, [ResizeShortestEdge(size)] with [size >= 0]
    asks for the same resize as [Resize(size)]: both return the descriptor
    from [(h, h)] to [(size, size)], without a draw. *)
Theorem resize_shortest_edge_on_square (size h interp : Z) (s : world) :
  (0 < h)%Z -> (0 <= size)%Z ->
  ResizeShortestEdge._get_augment_params
    (ResizeShortestEdge.__init__ (PyInt size) interp) h h s
  = Resize._get_augment_params (Resize.__init__ (ShapeInt size) interp) h h s
  /\
  Resize._get_augment_params (Resize.__init__ (ShapeInt size) interp) h h s
  = (Ok (MkResizeTransform h h size size interp), s).
Proof.
  intros Hh Hs. split; [|reflexivity].
  rewrite resize_shortest_edge_run by lia.
  rewrite Z.ltb_irrefl, Z.min_id. cbn [ResizeShortestEdge.size
    ResizeShortestEdge.interp ResizeShortestEdge.__init__].
  assert (E : inject_Z size / inject_Z h * inject_Z h == inject_Z size).
  { field. intro Z0. apply Qeq_bool_iff in Z0.
    rewrite inject_Z_pos_neq0 in Z0 by lia. discriminate. }
  rewrite (round_half_comp E), round_half_Z by exact Hs. reflexivity.
Qed.

Lemma resize_shortest_edge_on_square_witness :
  ResizeShortestEdge._get_augment_params
    (ResizeShortestEdge.__init__ (PyInt 224) 1) 300 300 (constant_draws 0)
  = (Ok (MkResizeTransform 300 300 224 224 1), constant_draws 0).
Proof.
  destruct (@resize_shortest_edge_on_square 224 300 1 (constant_draws 0))
    as [Hsame Hresize]; [lia | lia |].
  rewrite Hsame. exact Hresize.
Defined.

(** ** RandomResize: what a pass and a run can do *)

Lemma next_world_cases (self : RandomResize.t) (h w : Z) (s : world) :
  next_world self h w s = drawn s \/ next_world self h w s = drawn (drawn s).
Proof.
  unfold next_world, RandomResize.get_dest_size, RandomResize.dest_before_rounding,
    RandomResize.rand_in_yrange, py_div, bind, ret, raise.
  destruct (RandomResize._is_scale self); rewrite rand_in_run;
    destruct (Qeq_bool (RandomResize.aspect_ratio_thres self) 0);
    try destruct (RandomResize.yrange self) as [yr|];
    try rewrite rand_in_run;
    try destruct (Qeq_bool (inject_Z w) 0);
    simpl; auto.
Qed.


(** The four ways a pass through the loop can end. *)
Lemma body_cases (self : RandomResize.t) (h w : Z) (cnt : nat) (s s' : world)
    (r : result RandomResize.flow) :
  RandomResize.body self h w cnt s = (r, s') ->
  (exists e, r = Raise e /\ s' = next_world self h w s)
  \/ (r = Ok (RandomResize.Continue (S cnt)) /\ s' = next_world self h w s /\
      (S cnt <= 50)%nat)
  \/ (exists destX destY,
        RandomResize.get_dest_size self h w s = (Ok (destX, destY), s') /\
        r = Ok (RandomResize.Return
                  (MkResizeTransform h w destY destX (RandomResize.interp self))) /\
        (0 < RandomResize.aspect_ratio_thres self ->
         destY <> 0%Z /\
         deviation h w destX destY < RandomResize.aspect_ratio_thres self + 1e-5))
  \/ (r = Ok (RandomResize.Return (identity_size self h w)) /\
      s' = warned RandomResize.fail_msg (next_world self h w s) /\
      (50 <= cnt)%nat /\ h <> 0%Z /\ 0 < RandomResize.aspect_ratio_thres self).
Proof.
  unfold RandomResize.body, bind, next_world.
  destruct (RandomResize.get_dest_size self h w s) as [[[dx dy]|e] s1] eqn:Hd;
    cbn [snd].
  2:{ intros [= <- <-]. left. eauto. }
  destruct (Qlt_bool 0 (RandomResize.aspect_ratio_thres self)) eqn:Ht.
  2:{ unfold ret. intros [= <- <-]. right. right. left. exists dx, dy.
      split; [reflexivity | split; [reflexivity|]].
      intro Hpos. apply Qlt_bool_iff in Hpos. congruence. }
  apply Qlt_bool_iff in Ht.
  unfold py_div.
  destruct (Qeq_bool (inject_Z h) 0) eqn:Eh.
  { unfold raise. intros [= <- <-]. left. eauto. }
  unfold ret at 1.
  destruct (Qeq_bool (inject_Z dy) 0) eqn:Ey.
  { unfold raise. intros [= <- <-]. left. eauto. }
  unfold ret at 1.
  destruct (Qeq_bool (inject_Z w * 1 / inject_Z h) 0) eqn:Er.
  { unfold raise. intros [= <- <-]. left. eauto. }
  unfold ret at 1.
  assert (Hh : h <> 0%Z).
  { intros ->. discriminate Eh. }
  assert (Hy : dy <> 0%Z).
  { intros ->. discriminate Ey. }
  assert (E : Qabs (inject_Z dx * 1 / inject_Z dy - inject_Z w * 1 / inject_Z h)
              / (inject_Z w * 1 / inject_Z h)
              == deviation h w dx dy).
  { unfold deviation. now rewrite !Qmult_1_r. }
  rewrite (Qleb_comp _ _
             (Qeq_refl (RandomResize.aspect_ratio_thres self + 1e-5)) _ _ E).
  destruct (Qle_bool _ (deviation h w dx dy)) eqn:Ed.
  - destruct (50 <? S cnt)%nat eqn:Ec.
    + apply Nat.ltb_lt in Ec. unfold logger_warn, ret.
      intros [= <- <-]. right. right. right.
      repeat split; trivial. lia.
    + apply Nat.ltb_ge in Ec. unfold ret. intros [= <- <-].
      right. left. repeat split; trivial.
  - apply Qle_bool_false_iff in Ed. unfold ret. intros [= <- <-].
    right. right. left. exists dx, dy. repeat split; trivial.
Qed.

Lemma world_after_draws (k : nat) (self : RandomResize.t) (h w : Z) (s : world) :
  draws (world_after k self h w s) = draws s /\
  (pos s + k <= pos (world_after k self h w s) <= pos s + 2 * k)%nat.
Proof.
  revert s. induction k as [|k IH]; intro s; simpl; [split; [trivial|lia]|].
  destruct (IH (next_world self h w s)) as [Hd Hp].
  destruct (next_world_cases self h w s) as [E|E]; rewrite E in *;
    simpl in *; split; trivial; lia.
Qed.

(** The result of the loop is the result of its last pass, which comes
    after [k] passes that went on. *)
Lemma while_true_last_pass (self : RandomResize.t) (h w : Z) (fuel cnt : nat)
    (s s' : world) (r : result ResizeTransform) :
  RandomResize.while_true fuel self h w cnt s = Some (r, s') ->
  exists k,
    (k < fuel)%nat /\ (k = 0%nat \/ cnt + k <= 50)%nat /\
    ((exists e, r = Raise e /\
        RandomResize.body self h w (cnt + k) (world_after k self h w s)
        = (Raise e, s'))
     \/ (exists tfm, r = Ok tfm /\
        RandomResize.body self h w (cnt + k) (world_after k self h w s)
        = (Ok (RandomResize.Return tfm), s'))).
Proof.
  revert cnt s. induction fuel as [|fuel IH]; intros cnt s; simpl;
    [discriminate|].
  destruct (RandomResize.body self h w cnt s) as [[[tfm|c]|e] s1] eqn:Hb.
  - intros [= <- <-]. exists 0%nat. rewrite Nat.add_0_r.
    split; [lia|]. split; [now left|]. right. eauto.
  - intro Hrun. destruct (body_cases _ _ _ _ _ Hb)
      as [(e & He & _)|[(Hc & Hs & Hle)|[(dx & dy & _ & Hr & _)|(Hr & _)]]];
      try discriminate.
    injection Hc as ->. subst s1.
    destruct (IH _ _ Hrun) as (k & Hk & Hbound & Hlast).
    exists (S k). replace (cnt + S k)%nat with (S cnt + k)%nat by lia.
    split; [lia|]. split; [right; destruct Hbound; lia | exact Hlast].
  - intros [= <- <-]. exists 0%nat. rewrite Nat.add_0_r.
    split; [lia|]. split; [now left|]. left. eauto.
Qed.

Lemma while_true_more_fuel (self : RandomResize.t) (h w : Z) (fuel k cnt : nat)
    (s : world) (r : result ResizeTransform * world) :
  RandomResize.while_true fuel self h w cnt s = Some r ->
  RandomResize.while_true (fuel + k) self h w cnt s = Some r.
Proof.
  revert cnt s. induction fuel as [|fuel IH]; intros cnt s; simpl;
    [discriminate|].
  destruct (RandomResize.body self h w cnt s) as [[[tfm|c]|e] s1]; trivial.
  apply IH.
Qed.



(** X13.  The footprint of a sampling call of [RandomResize]: the
    generator is only advanced, by at least one and at most 102 draws (two
    for each of at most 51 candidates), and the log is either untouched or
    extended by the one warning, the latter only when the result is the
    identity-size fallback. *)
Theorem random_resize_footprint (self : RandomResize.t) (h w : Z) (fuel : nat)
    (s s' : world) (r : result ResizeTransform) :
  RandomResize._get_augment_params fuel self h w s = Some (r, s') ->
  draws s' = draws s /\
  (pos s < pos s' <= pos s + 102)%nat /\
  (log s' = log s \/
   (log s' = log s ++ [RandomResize.fail_msg] /\
    r = Ok (identity_size self h w))).
Proof.
  intro Hrun. unfold RandomResize._get_augment_params in Hrun.
  destruct (while_true_last_pass _ _ _ _ _ _ Hrun) as (k & _ & Hk & Hlast).
  simpl in Hk, Hlast.
  assert (Hk' : (k <= 50)%nat) by lia.
  set (s0 := world_after k self h w s) in *.
  destruct (world_after_draws k self h w s) as [Hd Hp]. fold s0 in Hd, Hp.
  pose proof (world_after_log k self h w s) as Hl. fold s0 in Hl.
  pose proof (next_world_log self h w s0) as Hnl.
  assert (Hn : draws (next_world self h w s0) = draws s0 /\
               (pos s0 < pos (next_world self h w s0) <= pos s0 + 2)%nat).
  { destruct (next_world_cases self h w s0) as [E|E]; rewrite E; simpl;
      split; trivial; lia. }
  destruct Hn as [Hnd Hnp].
  assert (Hget : forall dx dy,
             RandomResize.get_dest_size self h w s0 = (Ok (dx, dy), s') ->
             s' = next_world self h w s0).
  { intros dx dy E. unfold next_world. now rewrite E. }
  destruct Hlast as [(e & -> & Hb)|(tfm & -> & Hb)];
    destruct (body_cases _ _ _ _ _ Hb)
      as [(e' & He & ->)|[(Hc & _)|[(dx & dy & Hg & Hr & _)
                                  |(Hr & -> & _)]]];
    try discriminate;
    try (apply Hget in Hg; subst s').
  - repeat split; try congruence; try lia. left. congruence.
  - repeat split; try congruence; try lia. left. congruence.
  - injection Hr as ->. unfold warned. cbn [draws pos log].
    repeat split; try congruence; try lia. right. split; [congruence|trivial].
Qed.

Lemma random_resize_footprint_witness :
  exists s',
    RandomResize._get_augment_params 51 tall_floor_sampler 100 100
      (constant_draws 0.5)
      = Some (Ok (identity_size tall_floor_sampler 100 100), s') /\
    (pos s' <= 102)%nat.
Proof.
  assert (Hrun : RandomResize._get_augment_params 51 tall_floor_sampler 100 100
                   (constant_draws 0.5)
                 = Some (Ok (identity_size tall_floor_sampler 100 100),
                         warned RandomResize.fail_msg
                           (world_after 51 tall_floor_sampler 100 100
                              (constant_draws 0.5)))).
  { vm_compute. reflexivity. }
  destruct (@random_resize_footprint tall_floor_sampler 100 100 51
              (constant_draws 0.5) _ _ Hrun) as (_ & Hpos & _).
  eexists. split; [exact Hrun | exact (proj2 Hpos)].
Defined.

(** X14.  The sampling loop of [RandomResize] always ends: whatever the
    configuration, the image and the generator, 51 passes are enough, and
    allowing more changes nothing. *)
Theorem random_resize_terminates (self : RandomResize.t) (h w : Z)
    (fuel : nat) (s : world) :
  (51 <= fuel)%nat ->
  exists r,
    RandomResize._get_augment_params 51 self h w s = Some r /\
    RandomResize._get_augment_params fuel self h w s = Some r.
Proof.
  intro Hfuel. unfold RandomResize._get_augment_params.
  destruct (@while_true_terminates self h w 51 0 s) as [r Hr]; [lia | lia |].
  exists r. split; [exact Hr|].
  replace fuel with (51 + (fuel - 51))%nat by lia.
  now apply while_true_more_fuel.
Qed.

Lemma random_resize_terminates_witness :
  exists r,
    RandomResize._get_augment_params 51 wide_sampler 100 100
      (World skewed_fifty_times 0 []) = Some r /\
    RandomResize._get_augment_params 60 wide_sampler 100 100
      (World skewed_fifty_times 0 []) = Some r.
Proof.
  apply (@random_resize_terminates wide_sampler 100 100 60
           (World skewed_fifty_times 0 [])).
  lia.
Defined.

Lemma get_dest_size_floor (self : RandomResize.t) (h w : Z) (s s1 : world)
    (destX destY : Z) :
  RandomResize.get_dest_size self h w s = (Ok (destX, destY), s1) ->
  (round_half (fst (RandomResize.minimum self)) <= destX)%Z /\
  (round_half (snd (RandomResize.minimum self)) <= destY)%Z.
Proof.
  unfold RandomResize.get_dest_size, bind.
  destruct (RandomResize.dest_before_rounding self h w s) as [[[x y]|e] s2] eqn:E;
    [|discriminate].
  unfold ret. intros [= <- <- _]. cbn [fst snd].
  destruct (dest_before_rounding_floor _ _ _ _ E) as [Hx Hy].
  split; now apply round_half_mono.
Qed.

(** X15.  After rounding, too, a sampled destination respects [minimum]:
    whatever [RandomResize] returns is either the identity-size fallback,
    the warning logged, or a descriptor whose destination is at least the
    rounded [minimum] in width and in height. *)
Theorem random_resize_result_respects_minimum (self : RandomResize.t)
    (h w : Z) (fuel : nat) (s s' : world) (tfm : ResizeTransform) :
  RandomResize._get_augment_params fuel self h w s = Some (Ok tfm, s') ->
  (tfm = identity_size self h w /\
   log s' = log s ++ [RandomResize.fail_msg])
  \/ ((round_half (fst (RandomResize.minimum self)) <= dst_w tfm)%Z /\
      (round_half (snd (RandomResize.minimum self)) <= dst_h tfm)%Z /\
      log s' = log s).
Proof.
  intro Hrun. unfold RandomResize._get_augment_params in Hrun.
  destruct (while_true_last_pass _ _ _ _ _ _ Hrun)
    as (k & _ & _ & [(e & He & _)|(tfm' & [= <-] & Hb)]); [discriminate|].
  pose proof (world_after_log k self h w s) as Hl.
  pose proof (next_world_log self h w (world_after k self h w s)) as Hnl.
  destruct (body_cases _ _ _ _ _ Hb)
    as [(e & He & _)|[(Hc & _)|[(dx & dy & Hg & [= ->] & _)
                                |([= ->] & -> & _)]]];
    try discriminate.
  - right. destruct (get_dest_size_floor _ _ _ _ Hg) as [Hx Hy].
    cbn [dst_w dst_h]. repeat split; trivial.
    unfold next_world in Hnl. rewrite Hg in Hnl. simpl in Hnl. congruence.
  - left. split; trivial. unfold warned. cbn [log]. congruence.
Qed.

Lemma random_resize_result_respects_minimum_witness :
  (round_half (fst (RandomResize.minimum wide_sampler)) <= 125)%Z.
Proof.
  destruct (@random_resize_result_respects_minimum wide_sampler 100 100 51
              (constant_draws 0.75) (drawn (drawn (constant_draws 0.75)))
              (MkResizeTransform 100 100 125 125 1))
    as [[Hid _]|(Hx & _)].
  - vm_compute. reflexivity.
  - discriminate Hid.
  - exact Hx.
Defined.

(** X16.  [RandomResize] returns the first candidate that passes the test:
    for an image of positive height and width and a positive threshold,
    when [k <= 50] candidates in a row are rejected and the next one,
    [(destX, destY)] with [destY <> 0], is within the tolerance, the result
    is the descriptor from [(h, w)] to [(destY, destX)], nothing is logged
    and no further draw is taken. *)
Theorem random_resize_returns_first_accepted (self : RandomResize.t)
    (h w : Z) (k fuel : nat) (s s1 : world) (destX destY : Z) :
  0 < RandomResize.aspect_ratio_thres self ->
  (0 < h)%Z -> (0 < w)%Z ->
  (k <= 50)%nat -> (k < fuel)%nat ->
  all_rejected k self h w s ->
  RandomResize.get_dest_size self h w (world_after k self h w s)
    = (Ok (destX, destY), s1) ->
  destY <> 0%Z ->
  deviation h w destX destY < RandomResize.aspect_ratio_thres self + 1e-5 ->
  RandomResize._get_augment_params fuel self h w s
    = Some (Ok (MkResizeTransform h w destY destX (RandomResize.interp self)),
            s1)
  /\ log s1 = log s.
Proof.
  intros Ht Hh Hw Hk Hfuel Hrej Hd Hy Hdev. split.
  - unfold RandomResize._get_augment_params.
    replace fuel with (k + S (fuel - S k))%nat by lia.
    rewrite (@while_true_rejections self h w Ht Hh Hw k _ 0 s Hrej) by lia.
    cbn [RandomResize.while_true Nat.add].
    rewrite (@body_tested self h w Ht Hh Hw k _ s1 destX destY Hd Hy).
    replace (Qle_bool _ _) with false; [reflexivity|].
    symmetry. now apply Qle_bool_false_iff.
  - pose proof (next_world_log self h w (world_after k self h w s)) as Hnl.
    unfold next_world in Hnl. rewrite Hd in Hnl. simpl in Hnl.
    now rewrite Hnl, world_after_log.
Qed.

Lemma random_resize_returns_first_accepted_witness :
  RandomResize._get_augment_params 51 wide_sampler 100 100
    (World skewed_fifty_times 0 [])
  = Some (Ok (MkResizeTransform 100 100 125 125 1),
          World skewed_fifty_times 102 []).
Proof.
  destruct (@random_resize_returns_first_accepted wide_sampler 100 100 50 51
              (World skewed_fifty_times 0 []) (World skewed_fifty_times 102 [])
              125 125) as [Hrun _].
  - reflexivity.
  - lia.
  - lia.
  - lia.
  - lia.
  - apply all_rejectedb_iff. vm_compute. reflexivity.
  - vm_compute. reflexivity.
  - lia.
  - vm_compute. reflexivity.
  - exact Hrun.
Defined.

(** X17.  A configuration error that construction lets through: with a
    positive [aspect_ratio_thres] (such as the default 0.15) and no
    [yrange], the constructor succeeds, and then every sampling call raises
    [TypeError] after its first draw. *)
Theorem random_resize_without_yrange (xrange : RandomResize.range)
    (minimum : Q * Q) (aspect_ratio_thres : Q) (interp : Z) (s0 : world) :
  0 < aspect_ratio_thres ->
  exists self,
    RandomResize.__init__ xrange None minimum aspect_ratio_thres interp s0
      = (Ok self, s0) /\
    forall h w fuel s,
      RandomResize._get_augment_params (S fuel) self h w s
        = Some (Raise TypeError, drawn s).
Proof.
  intro Ht.
  assert (E0 : Qeq_bool aspect_ratio_thres 0 = false).
  { apply Qeq_bool_false_iff. intro E. rewrite E in Ht.
    now apply Qlt_irrefl in Ht. }
  assert (E1 : Qle_bool 0 aspect_ratio_thres = true).
  { apply Qle_bool_iff. now apply Qlt_le_weak. }
  exists (RandomResize.Build xrange None minimum aspect_ratio_thres interp
            (RandomResize.is_float xrange)).
  split.
  - unfold RandomResize.__init__, py_assert, bind, ret.
    now rewrite E1, E0.
  - intros h w fuel s.
    unfold RandomResize._get_augment_params. cbn [RandomResize.while_true].
    unfold RandomResize.body, RandomResize.get_dest_size,
      RandomResize.dest_before_rounding, RandomResize.rand_in_yrange, bind.
    cbn [RandomResize._is_scale RandomResize.xrange RandomResize.yrange
         RandomResize.aspect_ratio_thres].
    destruct (RandomResize.is_float xrange); rewrite rand_in_run, E0;
      reflexivity.
Qed.

Lemma random_resize_without_yrange_witness :
  exists self,
    RandomResize.__init__ (PyFloat 0.5, PyFloat 1.5) None (0, 0) 0.15 1
      (constant_draws 0.5) = (Ok self, constant_draws 0.5) /\
    RandomResize._get_augment_params 51 self 100 100 (constant_draws 0.5)
      = Some (Raise TypeError, drawn (constant_draws 0.5)).
Proof.
  destruct (@random_resize_without_yrange (PyFloat 0.5, PyFloat 1.5) (0, 0)
              0.15 1 (constant_draws 0.5)) as (self & Hinit & Hrun).
  - reflexivity.
  - exists self. split; [exact Hinit | apply Hrun].
Defined.

(** ** RandomResize: keeping the aspect ratio exactly *)







(** ** RandomResize: what the constructor leaves behind *)

(** X20.  A [RandomResize] that could be constructed holds the arguments as
    given, is in scale mode exactly when [xrange] has a float endpoint, has
    a non-negative threshold and a [yrange], if any, classified like
    [xrange].  Construction logs the warning that [yrange] is not used
    exactly when [aspect_ratio_thres == 0] in pixel mode with a [yrange]
    given, and otherwise leaves the world as it was. *)
Theorem random_resize_constructed (xrange : RandomResize.range)
    (yrange : option RandomResize.range) (minimum : Q * Q)
    (aspect_ratio_thres : Q) (interp : Z) (s s' : world)
    (self : RandomResize.t) :
  RandomResize.__init__ xrange yrange minimum aspect_ratio_thres interp s
    = (Ok self, s') ->
  let useless_yrange :=
    aspect_ratio_thres == 0 /\ RandomResize.is_float xrange = false /\
    yrange <> None in
  self = RandomResize.Build xrange yrange minimum aspect_ratio_thres interp
           (RandomResize.is_float xrange) /\
  0 <= aspect_ratio_thres /\
  (forall yr, yrange = Some yr ->
     RandomResize.is_float yr = RandomResize.is_float xrange) /\
  (useless_yrange -> s' = warned unused_yrange_msg s) /\
  (~ useless_yrange -> s' = s).
Proof.
  intros Hinit useless.
  split; [exact (random_resize_init_ok _ _ _ _ _ _ Hinit)|].
  revert Hinit.
  unfold RandomResize.__init__, py_assert, bind, ret, raise, logger_warn.
  destruct (Qle_bool 0 aspect_ratio_thres) eqn:Et; [|discriminate].
  apply Qle_bool_iff in Et. unfold useless.
  destruct yrange as [yr|].
  - destruct (Bool.eqb _ _) eqn:Ef; [|discriminate].
    apply eqb_prop in Ef.
    destruct (Qeq_bool aspect_ratio_thres 0) eqn:E0.
    + apply Qeq_bool_iff in E0.
      destruct (RandomResize.is_float xrange) eqn:Ex.
      * destruct (_ || _); [|discriminate]. intros [= _ <-].
        repeat split; trivial.
        -- now intros y [= <-].
        -- intros (_ & H & _). discriminate.
      * intros [= _ <-]. repeat split; trivial.
        -- now intros y [= <-].
        -- intro N. exfalso. apply N. repeat split; trivial. discriminate.
    + apply Qeq_bool_false_iff in E0. intros [= _ <-].
      repeat split; trivial.
      * now intros y [= <-].
      * intros (H & _). contradiction.
  - destruct (Qeq_bool aspect_ratio_thres 0).
    + destruct (RandomResize.is_float xrange).
      * destruct (_ || _); [|discriminate]. intros [= _ <-].
        repeat split; trivial; try discriminate.
        intros (_ & _ & H). now contradiction H.
      * intros [= _ <-]. repeat split; trivial; try discriminate.
        intros (_ & _ & H). now contradiction H.
    + intros [= _ <-]. repeat split; trivial; try discriminate.
      intros (_ & _ & H). now contradiction H.
Qed.

Lemma random_resize_constructed_witness :
  exists self s',
    RandomResize.__init__ (PyInt 200, PyInt 350) (Some (PyInt 100, PyInt 200))
      (0, 0) 0 1 (constant_draws 0.5) = (Ok self, s') /\
    RandomResize._is_scale self = false /\
    log s' = [unused_yrange_msg].
Proof.
  assert (Hinit :
    RandomResize.__init__ (PyInt 200, PyInt 350) (Some (PyInt 100, PyInt 200))
      (0, 0) 0 1 (constant_draws 0.5)
    = (Ok (RandomResize.Build (PyInt 200, PyInt 350)
             (Some (PyInt 100, PyInt 200)) (0, 0) 0 1 false),
       warned unused_yrange_msg (constant_draws 0.5))) by reflexivity.
  destruct (@random_resize_constructed (PyInt 200, PyInt 350)
              (Some (PyInt 100, PyInt 200)) (0, 0) 0 1 (constant_draws 0.5)
              _ _ Hinit) as (_ & _ & _ & Hwarn & _).
  eexists. eexists. split; [exact Hinit|].
  split; reflexivity.
Defined.

(** ** RandomResize: candidates stay within the configured range *)






(** ** Flip and Transpose together *)

Lemma cons_col_app {A : Type} (c1 c2 : list A) (m1 m2 : list (list A)) :
  length c1 = length m1 ->
  cons_col (c1 ++ c2) (m1 ++ m2) = cons_col c1 m1 ++ cons_col c2 m2.
Proof.
  revert m1. induction c1 as [|x c1 IH]; intros [|r m1] H; simpl in *;
    try discriminate; trivial.
  rewrite IH by lia. reflexivity.
Qed.

Lemma cons_col_rev {A : Type} (c : list A) (m : list (list A)) :
  length c = length m ->
  cons_col (rev c) (rev m) = rev (cons_col c m).
Proof.
  revert m. induction c as [|x c IH]; intros [|r m] H; simpl in *;
    try discriminate; trivial.
  rewrite cons_col_app by (rewrite !length_rev; lia).
  rewrite IH by lia. reflexivity.
Qed.

Lemma transpose_w_map_rev {A : Type} (w : nat) (m : list (list A)) :
  Forall (fun r => length r = w) m ->
  transpose_w w (map (@rev A) m) = rev (transpose_w w m).
Proof.
  induction 1 as [|r m Hr Hm IH]; simpl.
  - symmetry. apply rev_repeat.
  - rewrite IH. apply cons_col_rev.
    now rewrite transpose_w_length.
Qed.

Lemma transpose_map_rev {A : Type} (m : list (list A)) :
  Forall (fun r => length r = width m) m ->
  transpose (map (@rev A) m) = rev (transpose m).
Proof.
  intro H. unfold transpose.
  replace (width (map (@rev A) m)) with (width m)
    by (destruct m; simpl; [trivial | now rewrite length_rev]).
  now apply transpose_w_map_rev.
Qed.

(** X22.  Transposing turns a horizontal flip into a vertical one: on a
    well-formed image, flipping horizontally and then transposing gives
    the same image as transposing and then flipping vertically, and the
    same holds for the coordinates when the second flip is given the
    parameters of the transposed image, [(True, w, h)]. *)
Theorem transpose_after_horizontal_flip (p1 p2 : Q) (fh fv : Flip.t)
    (t : Transpose.t) (img : ndarray) (cs : coords) (h w : Z) :
  Flip.__init__ true false p1 = Ok fh ->
  Flip.__init__ false true p2 = Ok fv ->
  wf_image img ->
  Transpose._augment t (FlipImage._augment fh img (true, h, w)) true
  = FlipImage._augment fv (Transpose._augment t img true) (true, w, h)
  /\
  Transpose._augment_coords t (Flip._augment_coords fh cs (true, h, w)) true
  = Flip._augment_coords fv (Transpose._augment_coords t cs true) (true, w, h).
Proof.
  intros [= <-] [= <-] Hwf. split.
  - rewrite (@augment_is_spatial_flip _ img h w Hwf).
    rewrite augment_is_spatial_transpose by (apply wf_spatial_flip; exact Hwf).
    rewrite (@augment_is_spatial_transpose t img Hwf).
    rewrite augment_is_spatial_flip by (apply wf_spatial_transpose; exact Hwf).
    cbn [Flip.code].
    destruct img as [m|m]; simpl in *; unfold flip_matrix; simpl; f_equal;
      apply transpose_map_rev; tauto.
  - unfold Transpose._augment_coords, Flip._augment_coords. simpl.
    rewrite !map_map. apply map_ext. now intros [x y].
Qed.

Lemma transpose_after_horizontal_flip_witness :
  Transpose._augment (Transpose.__init__ 1)
    (FlipImage._augment (Flip.Build 1 0.5)
       (Arr2 [[1%Z; 2%Z; 3%Z]; [4%Z; 5%Z; 6%Z]]) (true, 2%Z, 3%Z)) true
  = Arr2 [[3%Z; 6%Z]; [2%Z; 5%Z]; [1%Z; 4%Z]].
Proof.
  destruct (@transpose_after_horizontal_flip 0.5 0.5 (Flip.Build 1 0.5)
              (Flip.Build 0 0.5) (Transpose.__init__ 1)
              (Arr2 [[1%Z; 2%Z; 3%Z]; [4%Z; 5%Z; 6%Z]]) [] 2 3) as [Himg _].
  - reflexivity.
  - reflexivity.
  - simpl. repeat split; try lia; repeat constructor.
  - rewrite Himg. reflexivity.
Defined.

(** ** RandomResize: when sampling cannot fail *)





(** ** Transpose: coordinates follow the image *)

(** X24.  The coordinate transform of [Transpose] follows its image
    transform: on a well-formed image, a point lying on the pixel of row
    [i] and column [j] is sent onto the pixel of row [j] and column [i],
    which in the transposed image holds the pixel the point was on; and
    points on the image land on the transposed image. *)
Theorem transpose_point_follows_pixel (self : Transpose.t) (img : ndarray)
    (i j : nat) (p : Q * Q) :
  wf_image img ->
  on_pixel i j p ->
  exists p',
    Transpose._augment_coords self [p] true = [p'] /\
    on_pixel j i p' /\
    pixel (Transpose._augment self img true) j i = pixel img i j /\
    (on_image (height_of img) (width_of img) p ->
     on_image (height_of (Transpose._augment self img true))
              (width_of (Transpose._augment self img true)) p').
Proof.
  intros Hwf [[X0 X1] [Y0 Y1]].
  rewrite augment_is_spatial_transpose by exact Hwf.
  destruct p as [x y]. cbn [fst snd] in *.
  exists (y, x). split; [reflexivity|].
  split; [|split].
  - repeat split; assumption.
  - now apply pixel_spatial_transpose.
  - unfold height_of, width_of.
    rewrite (@shape2_spatial_transpose img Hwf). cbn [fst snd].
    unfold on_image. cbn [fst snd]. tauto.
Qed.

Lemma transpose_point_follows_pixel_witness :
  exists p',
    Transpose._augment_coords (Transpose.__init__ 1) [(2.5, 0.5)] true = [p'] /\
    on_pixel 2 0 p'.
Proof.
  destruct (@transpose_point_follows_pixel (Transpose.__init__ 1)
              (Arr2 [[1%Z; 2%Z; 3%Z]; [4%Z; 5%Z; 6%Z]]) 0 2 (2.5, 0.5))
    as (p' & Hrun & Hon & _).
  - simpl. repeat split; try lia; repeat constructor.
  - repeat split; simpl; discriminate.
  - exists p'. split; [exact Hrun | exact Hon].
Defined.
